(** * csim: a trace-driven set-associative cache simulator

    A shallow embedding of [csim.c] and the properties of its replacement
    engine.  The C program keeps the cache in heap arrays that
    [simulate_cache] mutates through a pointer; here the cache is a value
    that every access returns anew, together with the parameter record
    that the C code passes and returns by value.

    Operations whose behaviour C leaves undefined (a shift by a count
    outside [0, 64), a read outside an array) yield [None].  The [int]
    counters are 32-bit; their arithmetic is written with two's complement
    wrap-around. *)

From Stdlib Require Import ZArith Ascii Lia.
From stdpp Require Import base option list.

Local Open Scope Z_scope.

(** ** Machine arithmetic *)

Definition INT_MAX : Z := 2147483647.
Definition INT_MIN : Z := -2147483648.

(** A value reduced to the range of a 32-bit [int]. *)
Definition wrap_int (x : Z) : Z := (x + 2 ^ 31) mod 2 ^ 32 - 2 ^ 31.

Definition int_add (x y : Z) : Z := wrap_int (x + y).
Definition int_sub (x y : Z) : Z := wrap_int (x - y).

(** [x << n] and [x >> n] on [unsigned long long]. *)
Definition shl64 (x n : Z) : option Z :=
  if decide (0 <= n < 64) then Some (Z.shiftl x n mod 2 ^ 64) else None.

Definition shr64 (x n : Z) : option Z :=
  if decide (0 <= n < 64) then Some (Z.shiftr x n) else None.

(** ** Data model *)

(** [set_line]: the [block] pointer is never allocated nor read and is left
    out; [valid] only ever holds 0 or 1. *)
Record set_line : Type := mk_line {
  valid : bool;
  access_count : Z;
  tag : Z
}.

Abbreviation cache_set := (list set_line).
Abbreviation cache := (list (list set_line)).

Record cache_param_t : Type := mk_par {
  par_s : Z;
  par_b : Z;
  par_E : Z;
  par_S : Z;
  par_B : Z;
  par_hits : Z;
  par_misses : Z;
  par_evictions : Z
}.

Definition set_hits (par : cache_param_t) (h : Z) : cache_param_t :=
  mk_par (par_s par) (par_b par) (par_E par) (par_S par) (par_B par)
         h (par_misses par) (par_evictions par).

Definition set_misses (par : cache_param_t) (m : Z) : cache_param_t :=
  mk_par (par_s par) (par_b par) (par_E par) (par_S par) (par_B par)
         (par_hits par) m (par_evictions par).

Definition set_evictions (par : cache_param_t) (e : Z) : cache_param_t :=
  mk_par (par_s par) (par_b par) (par_E par) (par_S par) (par_B par)
         (par_hits par) (par_misses par) e.

Definition set_access_count (line : set_line) (n : Z) : set_line :=
  mk_line (valid line) n (tag line).

(** ** build_cache *)

Definition fresh_line : set_line := mk_line false 0 0.

(** Both loops only store the same zeroed line; the outer index is an
    [int] compared with a [long long] bound, so the bound has to fit. *)
Definition build_cache (num_sets num_lines block_size : Z) : option cache :=
  if decide (num_sets <= INT_MAX)
  then Some (replicate (Z.to_nat num_sets)
                       (replicate (Z.to_nat num_lines) fresh_line))
  else None.

(** ** get_empty_line *)

Fixpoint get_empty_line_loop (n i : nat) (lines : cache_set) : option nat :=
  match n with
  | O => Some 0%nat
  | S n' =>
      line ← lines !! i;
      if valid line then get_empty_line_loop n' (S i) lines else Some i
  end.

Definition get_empty_line (set : cache_set) (par : cache_param_t) : option nat :=
  get_empty_line_loop (Z.to_nat (par_E par)) 0 set.

(** ** get_LRU *)

(** The loop state is [(min_used_index, min_used, max_used)]. *)
Fixpoint get_LRU_loop (n lineIndex : nat) (lines : cache_set)
    (min_used_index : nat) (min_used max_used : Z) : option (nat * Z * Z) :=
  match n with
  | O => Some (min_used_index, min_used, max_used)
  | S n' =>
      line ← lines !! lineIndex;
      let min_used_index' :=
        if access_count line <? min_used then lineIndex else min_used_index in
      let min_used' :=
        if access_count line <? min_used then access_count line else min_used in
      let max_used' :=
        if max_used <? access_count line then access_count line else max_used in
      get_LRU_loop n' (S lineIndex) lines min_used_index' min_used' max_used'
  end.

(** Returns the index together with [used_lines[0]] and [used_lines[1]]. *)
Definition get_LRU (this_set : cache_set) (par : cache_param_t)
    : option (nat * Z * Z) :=
  first ← this_set !! 0%nat;
  get_LRU_loop (Z.to_nat (par_E par) - 1) 1 this_set
               0 (access_count first) (access_count first).

(** ** simulate_cache *)

(** The scan over the lines of the queried set.  It has no [break]: every
    valid line with the input tag is bumped. *)
Fixpoint hit_scan (n lineIndex : nat) (input_tag : Z) (lines : cache_set)
    (hits : Z) (cache_full : bool) : option (cache_set * Z * bool) :=
  match n with
  | O => Some (lines, hits, cache_full)
  | S n' =>
      line ← lines !! lineIndex;
      if valid line then
        if tag line =? input_tag then
          hit_scan n' (S lineIndex) input_tag
            (<[lineIndex := set_access_count line (int_add (access_count line) 1)]> lines)
            (int_add hits 1) cache_full
        else hit_scan n' (S lineIndex) input_tag lines hits cache_full
      else
        hit_scan n' (S lineIndex) input_tag lines hits
          (if negb (valid line) && cache_full then false else cache_full)
  end.

(** The set index and the tag of an address, as [simulate_cache] computes
    them. *)
Definition address_split (par : cache_param_t) (address : Z) : option (Z * Z) :=
  let tag_size := int_sub 64 (int_add (par_s par) (par_b par)) in
  temp ← shl64 address tag_size;
  setIndex ← shr64 temp (int_add tag_size (par_b par));
  input_tag ← shr64 address (int_add (par_s par) (par_b par));
  Some (setIndex, input_tag).

Definition simulate_cache (this_cache : cache) (par : cache_param_t)
    (address : Z) : option (cache * cache_param_t) :=
  let num_lines := par_E par in
  let prev_hits := par_hits par in
  match address_split par address with
  | None => None
  | Some (setIndex, input_tag) =>
    query_set ← this_cache !! Z.to_nat setIndex;
    match hit_scan (Z.to_nat num_lines) 0 input_tag query_set prev_hits true with
    | None => None
    | Some (lines, hits, cache_full) =>
      if prev_hits =? hits then
        let par := set_misses par (int_add (par_misses par) 1) in
        match get_LRU lines par with
        | None => None
        | Some (min_used_index, min_used, max_used) =>
          if cache_full then
            let par := set_evictions par (int_add (par_evictions par) 1) in
            victim ← lines !! min_used_index;
            Some (<[Z.to_nat setIndex :=
                      <[min_used_index :=
                          mk_line (valid victim) (int_add max_used 1) input_tag]>
                        lines]> this_cache, par)
          else
            empty_line_index ← get_empty_line lines par;
            target ← lines !! empty_line_index;
            Some (<[Z.to_nat setIndex :=
                      <[empty_line_index :=
                          mk_line true (int_add max_used 1) input_tag]>
                        lines]> this_cache, par)
        end
      else
        Some (<[Z.to_nat setIndex := lines]> this_cache, set_hits par hits)
    end
  end.

(** ** main *)

Record trace_record : Type := mk_record {
  cmd : ascii;
  address : Z;
  size : Z
}.

(** The body of the [switch] in the replay loop. *)
Definition replay_record (this_cache : cache) (par : cache_param_t)
    (r : trace_record) : option (cache * cache_param_t) :=
  if Ascii.eqb (cmd r) "I" then Some (this_cache, par)
  else if Ascii.eqb (cmd r) "L" then simulate_cache this_cache par (address r)
  else if Ascii.eqb (cmd r) "S" then simulate_cache this_cache par (address r)
  else if Ascii.eqb (cmd r) "M" then
    match simulate_cache this_cache par (address r) with
    | None => None
    | Some (this_cache', par') => simulate_cache this_cache' par' (address r)
    end
  else Some (this_cache, par).

Fixpoint replay_trace (this_cache : cache) (par : cache_param_t)
    (trace : list trace_record) : option (cache * cache_param_t) :=
  match trace with
  | [] => Some (this_cache, par)
  | r :: trace' =>
      match replay_record this_cache par r with
      | None => None
      | Some (this_cache', par') => replay_trace this_cache' par' trace'
      end
  end.

(** [pow(2.0, s)] converted to [long long]. *)
Definition num_sets_of (s : Z) : Z := if s <? 0 then 0 else 2 ^ s.

(** [bit_pow]: [1 << power] on a signed 64-bit value. *)
Definition bit_pow (power : Z) : option Z :=
  if decide (0 <= power < 63) then Some (Z.shiftl 1 power) else None.

Inductive outcome : Type :=
  | usage_exit (status : Z)
  | summary (hits misses evictions : Z)
  | undefined.

(** [printUsage] prints the usage text and ends the process itself, with
    [exit(0)]: it never returns to its caller. *)
Definition printUsage : outcome := usage_exit 0.

(** [main] from the check of the parsed options on.  [s], [E], [b] are the
    fields of [par] as the option loop left them (0 when the option was not
    given, since [par] is zeroed first).  [trace_file] is [None] when no
    [-t] option has assigned the variable, which is then uninitialised, and
    otherwise the records that [fscanf] reads from the file it names until
    a line fails to parse.  A file that cannot be opened is not modelled.

    The check calls [printUsage], so the [exit(1)] written after that call
    is never reached.  The operands of [||] are evaluated from the left:
    [trace_file] is read only when [s], [E] and [b] are not zero; a
    pointer taken from [optarg] is not null, and reading the variable when
    nothing was assigned to it has no defined result. *)
Definition main_after_getopt (s E b : Z)
    (trace_file : option (list trace_record)) : outcome :=
  let par := mk_par s b E 0 0 0 0 0 in
  if (par_s par =? 0) || (par_E par =? 0) || (par_b par =? 0)
  then printUsage
  else
    match trace_file with
    | None => undefined
    | Some trace =>
        let num_sets := num_sets_of (par_s par) in
        match bit_pow (par_b par) with
        | None => undefined
        | Some block_size =>
            let par := set_evictions (set_misses (set_hits par 0) 0) 0 in
            match build_cache num_sets (par_E par) block_size with
            | None => undefined
            | Some this_cache =>
                match replay_trace this_cache par trace with
                | Some (_, par') =>
                    summary (par_hits par') (par_misses par') (par_evictions par')
                | None => undefined
                end
            end
        end
    end.

(** What one call of [getopt] returns in the option loop: an option letter
    of ["s:E:b:t:vh"], with [atoi (optarg)] for [-s], [-E] and [-b] and
    with the records of the file that [optarg] names for [-t], or any
    other value (['?'] for an unknown option or a missing argument). *)
Inductive getopt_return : Type :=
  | opt_s (n : Z)
  | opt_E (n : Z)
  | opt_b (n : Z)
  | opt_t (trace : list trace_record)
  | opt_v
  | opt_h
  | opt_other.

Definition set_s (par : cache_param_t) (n : Z) : cache_param_t :=
  mk_par n (par_b par) (par_E par) (par_S par) (par_B par)
         (par_hits par) (par_misses par) (par_evictions par).

Definition set_E (par : cache_param_t) (n : Z) : cache_param_t :=
  mk_par (par_s par) (par_b par) n (par_S par) (par_B par)
         (par_hits par) (par_misses par) (par_evictions par).

Definition set_b (par : cache_param_t) (n : Z) : cache_param_t :=
  mk_par (par_s par) n (par_E par) (par_S par) (par_B par)
         (par_hits par) (par_misses par) (par_evictions par).

(** How the option loop ends: the process has exited, or [getopt] has
    returned -1 and left [par] and [trace_file]. *)
Inductive getopt_state : Type :=
  | options_exit (o : outcome)
  | options_done (par : cache_param_t) (trace_file : option (list trace_record)).

(** The option loop over the successive returns of [getopt].  [-v] sets
    the global [verbosity], which nothing reads.  [-h] and the default
    case call [printUsage]; the [exit(0)] and [exit(1)] written after
    those calls are never reached. *)
Fixpoint getopt_loop (returns : list getopt_return) (par : cache_param_t)
    (trace_file : option (list trace_record)) : getopt_state :=
  match returns with
  | [] => options_done par trace_file
  | opt_s n :: rest => getopt_loop rest (set_s par n) trace_file
  | opt_E n :: rest => getopt_loop rest (set_E par n) trace_file
  | opt_b n :: rest => getopt_loop rest (set_b par n) trace_file
  | opt_t trace :: rest => getopt_loop rest par (Some trace)
  | opt_v :: rest => getopt_loop rest par trace_file
  | opt_h :: _ => options_exit printUsage
  | opt_other :: _ => options_exit printUsage
  end.

(** [par] after [bzero]. *)
Definition zeroed_par : cache_param_t := mk_par 0 0 0 0 0 0 0 0.

(** [main], as a function of what [getopt] returns call after call. *)
Definition main (returns : list getopt_return) : outcome :=
  match getopt_loop returns zeroed_par None with
  | options_exit o => o
  | options_done par trace_file =>
      main_after_getopt (par_s par) (par_E par) (par_b par) trace_file
  end.

(** The option loop ends normally with these values of [s], [E], [b] and
    this trace file. *)
Definition options_parse_to (returns : list getopt_return) (s E b : Z)
    (trace_file : option (list trace_record)) : Prop :=
  getopt_loop returns zeroed_par None
  = options_done (mk_par s b E 0 0 0 0 0) trace_file.

(** ** Runs of accesses *)

Fixpoint run_accesses (this_cache : cache) (par : cache_param_t)
    (addrs : list Z) : option (cache * cache_param_t) :=
  match addrs with
  | [] => Some (this_cache, par)
  | a :: addrs' =>
      match simulate_cache this_cache par a with
      | None => None
      | Some (this_cache', par') => run_accesses this_cache' par' addrs'
      end
  end.

(** The accesses that one trace record issues. *)
Definition accesses_of (r : trace_record) : list Z :=
  if Ascii.eqb (cmd r) "I" then []
  else if Ascii.eqb (cmd r) "L" then [address r]
  else if Ascii.eqb (cmd r) "S" then [address r]
  else if Ascii.eqb (cmd r) "M" then [address r; address r]
  else [].

(** ** Specification vocabulary *)

(** A resident line: valid and holding tag [t]. *)
Definition holds_tag (t : Z) (line : set_line) : Prop :=
  valid line = true /\ tag line = t.

(** No two valid lines of a set carry the same tag. *)
Definition no_duplicate_tags (lines : cache_set) : Prop :=
  forall i j li lj,
    lines !! i = Some li -> lines !! j = Some lj ->
    valid li = true -> valid lj = true -> tag li = tag lj -> i = j.

(** [k] is the lowest index of an invalid line. *)
Definition first_invalid_at (lines : cache_set) (k : nat) : Prop :=
  (exists l, lines !! k = Some l /\ valid l = false) /\
  (forall j l, (j < k)%nat -> lines !! j = Some l -> valid l = true).

(** [k] is the lowest index among the lines of least recency [m]. *)
Definition first_min_at (lines : cache_set) (k : nat) (m : Z) : Prop :=
  (exists l, lines !! k = Some l /\ access_count l = m) /\
  (forall j l, lines !! j = Some l -> m <= access_count l) /\
  (forall j l, (j < k)%nat -> lines !! j = Some l -> m < access_count l).

(** [m] is the greatest recency present in the set. *)
Definition max_count_of (lines : cache_set) (m : Z) : Prop :=
  (exists j l, lines !! j = Some l /\ access_count l = m) /\
  (forall j l, lines !! j = Some l -> access_count l <= m).

(** What the hit scan does to one line. *)
Definition matches (t : Z) (line : set_line) : bool :=
  valid line && (tag line =? t).

Definition bump (t : Z) (line : set_line) : set_line :=
  if matches t line
  then set_access_count line (int_add (access_count line) 1)
  else line.

Definition count_matches (t : Z) (lines : cache_set) : nat :=
  length (filter (fun l => matches t l = true) lines).

(** Configurations on which every operation of a run is defined: the
    shift counts stay below 64, the [int] index of [build_cache] reaches
    the number of sets, and [get_LRU] may read line 0. *)
Record valid_config (par : cache_param_t) : Prop := mk_valid_config {
  vc_s : 1 <= par_s par <= 30;
  vc_b : 1 <= par_b par;
  vc_sb : par_s par + par_b par <= 63;
  vc_E : 1 <= par_E par
}.

Definition same_config (par par' : cache_param_t) : Prop :=
  par_s par' = par_s par /\ par_b par' = par_b par /\ par_E par' = par_E par.

(** The cache has [2^s] sets of [E] lines each, without duplicate tags. *)
Definition cache_ok (par : cache_param_t) (c : cache) : Prop :=
  length c = Z.to_nat (2 ^ par_s par) /\
  Forall (fun set : cache_set => length set = Z.to_nat (par_E par)) c /\
  Forall no_duplicate_tags c.

(** After [n] accesses without overflow: the counters add up to [n] and no
    recency exceeds [n]. *)
Definition counters_ok (n : Z) (par : cache_param_t) (c : cache) : Prop :=
  0 <= par_hits par /\ 0 <= par_evictions par <= par_misses par /\
  par_hits par + par_misses par = n /\
  Forall (Forall (fun l : set_line => 0 <= access_count l <= n)) c.

Definition initial_par (s E b : Z) : cache_param_t := mk_par s b E 0 0 0 0 0.

(** The states [main] can be in between two accesses. *)
Definition reachable (s E b : Z) (addrs : list Z)
    (c : cache) (par : cache_param_t) : Prop :=
  exists block_size c0,
    bit_pow b = Some block_size /\
    build_cache (num_sets_of s) E block_size = Some c0 /\
    run_accesses c0 (initial_par s E b) addrs = Some (c, par).

(** All the accesses a trace issues, in order. *)
Definition issued (trace : list trace_record) : list Z :=
  flat_map accesses_of trace.

(** The three outcomes of one access, read off the counters. *)
Definition is_hit (par par' : cache_param_t) : Prop :=
  par' = set_hits par (par_hits par + 1).

Definition is_miss (par par' : cache_param_t) : Prop :=
  par' = set_misses par (par_misses par + 1).

Definition is_miss_eviction (par par' : cache_param_t) : Prop :=
  par' = set_evictions (set_misses par (par_misses par + 1))
                       (par_evictions par + 1).

(** The invariant of the loop of [get_LRU] once lines [0 .. i-1] are seen. *)
Definition lru_seen (lines : cache_set) (i k : nat) (mn mx : Z) : Prop :=
  (k < i)%nat /\
  (exists l, lines !! k = Some l /\ access_count l = mn) /\
  (forall j l, (j < i)%nat -> lines !! j = Some l ->
     mn <= access_count l <= mx /\ ((j < k)%nat -> mn < access_count l)) /\
  (exists j l, (j < i)%nat /\ lines !! j = Some l /\ access_count l = mx).

(** The replacement engine as a relation: what one access to the set
    [query_set] with tag [input_tag] may do to the set and the counters.
    Increments are those of the code, on 32-bit [int]s. *)
Inductive engine_step (par : cache_param_t) (input_tag : Z) (query_set : cache_set)
    : cache_set -> cache_param_t -> Prop :=
  | engine_hit (k : nat) (line : set_line) :
      query_set !! k = Some line -> holds_tag input_tag line ->
      engine_step par input_tag query_set
        (<[k := set_access_count line (int_add (access_count line) 1)]> query_set)
        (set_hits par (int_add (par_hits par) 1))
  | engine_fill (k : nat) (mx : Z) :
      (forall j l, query_set !! j = Some l -> ~ holds_tag input_tag l) ->
      first_invalid_at query_set k -> max_count_of query_set mx ->
      engine_step par input_tag query_set
        (<[k := mk_line true (int_add mx 1) input_tag]> query_set)
        (set_misses par (int_add (par_misses par) 1))
  | engine_evict (k : nat) (mn mx : Z) :
      (forall j l, query_set !! j = Some l -> ~ holds_tag input_tag l) ->
      (forall j l, query_set !! j = Some l -> valid l = true) ->
      first_min_at query_set k mn -> max_count_of query_set mx ->
      engine_step par input_tag query_set
        (<[k := mk_line true (int_add mx 1) input_tag]> query_set)
        (set_evictions (set_misses par (int_add (par_misses par) 1))
                       (int_add (par_evictions par) 1)).

(** ** A small running example

    [s = 1], [E = 2], [b = 1]: two sets of two lines, blocks of two bytes.
    After the accesses to 0x4 and 0x8 (tags 1 and 2 of set 0) set 0 is
    full. *)
Definition demo_set : cache_set := [mk_line true 1 1; mk_line true 2 2].
Definition demo_cache : cache := [demo_set; [fresh_line; fresh_line]].
Definition demo_par : cache_param_t := mk_par 1 1 2 0 0 0 2 0.


(** A trace over the running example: a load, a modify, an instruction
    fetch and a store. *)
Definition demo_trace : list trace_record :=
  [mk_record "L" 4 1; mk_record "M" 8 1; mk_record "I" 0 4; mk_record "S" 12 1].

(** The scenario [L 10,1 / L 20,1 / L 10,1] (addresses in hexadecimal). *)
Definition scenario_trace : list trace_record :=
  [mk_record "L" 0x10 1; mk_record "L" 0x20 1; mk_record "L" 0x10 1].

(** The position, in a history of accessed tags (oldest first), of the last
    access to [t]. *)
Fixpoint last_touch_from (i : nat) (history : list Z) (t : Z)
    (seen : option nat) : option nat :=
  match history with
  | [] => seen
  | x :: history' =>
      last_touch_from (S i) history' t (if x =? t then Some i else seen)
  end.

Definition last_touch (history : list Z) (t : Z) : option nat :=
  last_touch_from 0 history t None.

(** The lines that successive fills write into an empty set, where the
    greatest recency was [n]: the tags in the order of their accesses, with
    recencies [n + 1], [n + 2], ... *)
Fixpoint filled_from (n : Z) (tags : list Z) : cache_set :=
  match tags with
  | [] => []
  | t :: tags' => mk_line true (n + 1) t :: filled_from (n + 1) tags'
  end.

(** A set whose first lines were filled with [tags] and whose [m] other
    lines are still as built. *)
Definition partly_filled (tags : list Z) (m : nat) : cache_set :=
  filled_from 0 tags ++ replicate m fresh_line.

(** ** Vocabulary for the properties beyond single accesses *)

(** How many lines of a set, and of the whole cache, are valid. *)
Definition valid_count (set : cache_set) : nat :=
  sum_list_with (fun l : set_line => if valid l then 1%nat else 0%nat) set.

Definition resident_lines (c : cache) : nat := sum_list_with valid_count c.

(** The three ways in which an access moves the counters. *)
Inductive access_kind : Type := kind_hit | kind_miss | kind_miss_eviction.

Definition count_access (k : access_kind) (par : cache_param_t) : cache_param_t :=
  match k with
  | kind_hit => set_hits par (int_add (par_hits par) 1)
  | kind_miss => set_misses par (int_add (par_misses par) 1)
  | kind_miss_eviction =>
      set_evictions (set_misses par (int_add (par_misses par) 1))
                    (int_add (par_evictions par) 1)
  end.

(** [n] accesses going back and forth between two addresses. *)
Fixpoint alternate (a a' : Z) (n : nat) : list Z :=
  match n with
  | O => []
  | S n' => a :: alternate a' a n'
  end.

(** A trace reduced to its data accesses, each written as a load. *)
Definition data_loads (trace : list trace_record) : list trace_record :=
  (fun a => mk_record "L" a 0) <$> issued trace.

(** A line of a cache that has seen [n] accesses: as built while invalid,
    with a recency between 1 and [n] once valid. *)
Definition line_ok (n : Z) (l : set_line) : Prop :=
  if valid l then 1 <= access_count l <= n else l = fresh_line.

(** ** Machine arithmetic: lemmas *)

(** Side conditions saying that a sum stays within the range of [int]. *)
Ltac int_range := unfold INT_MIN, INT_MAX in *; simpl; lia.

Lemma wrap_int_small (x : Z) : INT_MIN <= x <= INT_MAX -> wrap_int x = x.
Proof.
  unfold INT_MIN, INT_MAX, wrap_int. intros Hx.
  rewrite Z.mod_small; lia.
Qed.

Lemma int_add_small (x y : Z) :
  INT_MIN <= x + y <= INT_MAX -> int_add x y = x + y.
Proof. apply wrap_int_small. Qed.

Lemma int_sub_small (x y : Z) :
  INT_MIN <= x - y <= INT_MAX -> int_sub x y = x - y.
Proof. apply wrap_int_small. Qed.

(** An increment always changes an [int], wrapped or not. *)
Lemma int_add_1_neq (x : Z) : int_add x 1 <> x.
Proof.
  unfold int_add, wrap_int. intros Heq.
  assert (Hm : (x + 1 + 2 ^ 31) mod 2 ^ 32 = x + 2 ^ 31) by lia.
  pose proof (Z.div_mod (x + 1 + 2 ^ 31) (2 ^ 32) ltac:(lia)) as Hdm.
  rewrite Hm in Hdm. lia.
Qed.

Lemma shl64_in_range (x n : Z) :
  0 <= n < 64 -> shl64 x n = Some (Z.shiftl x n mod 2 ^ 64).
Proof. intros Hn. unfold shl64. by rewrite decide_True. Qed.

Lemma shr64_in_range (x n : Z) : 0 <= n < 64 -> shr64 x n = Some (Z.shiftr x n).
Proof. intros Hn. unfold shr64. by rewrite decide_True. Qed.

(** The middle [s] bits, isolated by a left shift that drops the tag and a
    right shift that drops the offset. *)
Lemma shift_out_tag (a s b : Z) :
  1 <= s -> 1 <= b -> s + b <= 63 ->
  Z.shiftr (Z.shiftl a (64 - (s + b)) mod 2 ^ 64) (64 - (s + b) + b)
  = (a / 2 ^ b) mod 2 ^ s.
Proof.
  intros Hs Hb Hsb.
  rewrite Z.shiftl_mul_pow2, Z.shiftr_div_pow2 by lia.
  set (ts := 64 - (s + b)).
  assert (H64 : 2 ^ 64 = 2 ^ (s + b) * 2 ^ ts).
  { rewrite <- Z.pow_add_r by lia. f_equal. lia. }
  assert (Hts : 0 < 2 ^ ts) by (apply Z.pow_pos_nonneg; lia).
  assert (Hpb : 0 < 2 ^ b) by (apply Z.pow_pos_nonneg; lia).
  assert (Hps : 0 < 2 ^ s) by (apply Z.pow_pos_nonneg; lia).
  rewrite H64, Z.mul_mod_distr_r by lia.
  rewrite (Z.pow_add_r 2 ts b), (Z.mul_comm (2 ^ ts) (2 ^ b)) by lia.
  rewrite Z.div_mul_cancel_r by lia.
  rewrite (Z.pow_add_r 2 s b), (Z.mul_comm (2 ^ s) (2 ^ b)) by lia.
  rewrite Z.rem_mul_r by lia.
  rewrite (Z.mul_comm (2 ^ b)), Z.div_add by lia.
  rewrite (Z.div_small (a mod 2 ^ b)) by (apply Z.mod_pos_bound; lia).
  lia.
Qed.

Lemma address_split_defined (par : cache_param_t) (a : Z) :
  1 <= par_s par -> 1 <= par_b par -> par_s par + par_b par <= 63 ->
  address_split par a
  = Some ((a / 2 ^ par_b par) mod 2 ^ par_s par,
          a / 2 ^ (par_s par + par_b par)).
Proof.
  intros Hs Hb Hsb. unfold address_split.
  rewrite (int_add_small (par_s par)) by int_range.
  rewrite int_sub_small by int_range.
  rewrite int_add_small by int_range.
  rewrite shl64_in_range by lia. simpl.
  rewrite shr64_in_range by lia. simpl.
  rewrite shr64_in_range by lia. simpl.
  rewrite shift_out_tag, Z.shiftr_div_pow2 by lia.
  reflexivity.
Qed.

(** ** The loops in closed form *)

Lemma bump_matches (t : Z) (line : set_line) :
  valid line = true -> tag line = t ->
  bump t line = set_access_count line (int_add (access_count line) 1).
Proof.
  intros Hv Ht. unfold bump, matches. rewrite Hv, Ht, Z.eqb_refl. reflexivity.
Qed.

Lemma bump_other (t : Z) (line : set_line) : matches t line = false -> bump t line = line.
Proof. intros Hm. unfold bump. by rewrite Hm. Qed.

Lemma matches_true (t : Z) (line : set_line) :
  matches t line = true <-> holds_tag t line.
Proof.
  unfold matches, holds_tag. rewrite andb_true_iff, Z.eqb_eq. reflexivity.
Qed.

Lemma matches_false (t : Z) (line : set_line) :
  matches t line = false <-> ~ holds_tag t line.
Proof.
  rewrite <- matches_true. destruct (matches t line); split; congruence.
Qed.

Lemma iter_incr_shift (k : nat) (h : Z) :
  Nat.iter k (fun x => int_add x 1) (int_add h 1)
  = int_add (Nat.iter k (fun x => int_add x 1) h) 1.
Proof. induction k as [|k IH]; simpl; [reflexivity | by rewrite IH]. Qed.

(** The scan from line [i] on: the lines before [i] are kept, every later
    line is bumped when it holds the tag, [hits] is incremented once per
    such line, and [cache_full] survives when no later line is invalid. *)
Lemma hit_scan_from (n i : nat) (t : Z) (lines : cache_set) (hits : Z) (full : bool) :
  length lines = (i + n)%nat ->
  hit_scan n i t lines hits full
  = Some (take i lines ++ (bump t <$> drop i lines),
          Nat.iter (count_matches t (drop i lines)) (fun x => int_add x 1) hits,
          full && forallb valid (drop i lines)).
Proof.
  revert i lines hits full.
  induction n as [|n IH]; intros i lines hits full Hlen.
  - simpl. rewrite drop_ge, take_ge by lia. simpl.
    by rewrite app_nil_r, andb_true_r.
  - destruct (lookup_lt_is_Some_2 lines i ltac:(lia)) as [line Hline].
    simpl. rewrite Hline. simpl.
    rewrite (drop_S _ _ _ Hline). unfold count_matches. simpl.
    destruct (valid line) eqn:Hv.
    + destruct (tag line =? t) eqn:Ht.
      * rewrite IH by (rewrite length_insert; lia).
        assert (Hm : matches t line = true) by (unfold matches; by rewrite Hv, Ht).
        rewrite filter_cons_True by done.
        erewrite take_S_r by (apply list_lookup_insert_eq; lia).
        rewrite take_insert_ge, drop_insert_lt by lia.
        unfold bump at 2. rewrite Hm. simpl.
        rewrite <- app_assoc. simpl.
        by rewrite iter_incr_shift.
      * rewrite IH by lia.
        assert (Hm : matches t line = false) by (unfold matches; by rewrite Hv, Ht).
        rewrite filter_cons_False by (rewrite Hm; done).
        rewrite (take_S_r _ _ _ Hline), <- app_assoc. simpl.
        by rewrite (bump_other _ _ Hm).
    + rewrite IH by lia.
      assert (Hm : matches t line = false) by (unfold matches; by rewrite Hv).
      rewrite filter_cons_False by (rewrite Hm; done).
      rewrite (take_S_r _ _ _ Hline), <- app_assoc. simpl.
      rewrite (bump_other _ _ Hm).
      by destruct full.
Qed.

Lemma hit_scan_closed (t : Z) (lines : cache_set) (hits : Z) :
  hit_scan (length lines) 0 t lines hits true
  = Some (bump t <$> lines,
          Nat.iter (count_matches t lines) (fun x => int_add x 1) hits,
          forallb valid lines).
Proof. by rewrite hit_scan_from. Qed.

Lemma count_matches_none (t : Z) (lines : cache_set) :
  (forall j l, lines !! j = Some l -> ~ holds_tag t l) ->
  count_matches t lines = 0%nat /\ bump t <$> lines = lines.
Proof.
  unfold count_matches.
  induction lines as [|x lines IH]; intros Hno; [done|].
  assert (Hx : matches t x = false) by (apply matches_false, (Hno 0%nat); done).
  destruct IH as [IH1 IH2]; [intros j l Hj; apply (Hno (S j)); done|].
  rewrite filter_cons_False by (rewrite Hx; done).
  split; [done|]. rewrite fmap_cons. by rewrite (bump_other _ _ Hx), IH2.
Qed.

Lemma count_matches_unique (t : Z) (lines : cache_set) (k : nat) (line : set_line) :
  no_duplicate_tags lines ->
  lines !! k = Some line -> holds_tag t line ->
  count_matches t lines = 1%nat /\
  bump t <$> lines
  = <[k := set_access_count line (int_add (access_count line) 1)]> lines.
Proof.
  unfold count_matches.
  revert k. induction lines as [|x lines IH]; intros k Hnd Hk [Hv Ht]; [done|].
  destruct k as [|k]; simpl in Hk.
  - injection Hk as ->.
    destruct (count_matches_none t lines) as [H0 Hid].
    { intros j l Hj [Hv' Ht'].
      assert (S j = 0%nat) by (apply (Hnd (S j) 0%nat l line); simpl; congruence).
      done. }
    rewrite filter_cons_True by (apply matches_true; done).
    unfold count_matches in H0. simpl length. rewrite H0. split; [done|].
    rewrite fmap_cons, Hid. by rewrite bump_matches.
  - assert (Hx : matches t x = false).
    { apply matches_false. intros [Hv' Ht'].
      assert (0%nat = S k) by (apply (Hnd 0%nat (S k) x line); simpl; congruence).
      done. }
    destruct (IH k) as [IH1 IH2]; [|done|done|].
    { intros i j li lj Hi Hj Hvi Hvj Hij.
      assert (S i = S j) by (apply (Hnd (S i) (S j) li lj); done). lia. }
    rewrite filter_cons_False by (rewrite Hx; done).
    split; [done|]. rewrite fmap_cons.
    by rewrite (bump_other _ _ Hx), IH2.
Qed.

Lemma forallb_valid_true (lines : cache_set) :
  forallb valid lines = true <-> forall j l, lines !! j = Some l -> valid l = true.
Proof.
  rewrite forallb_forall. split.
  - intros H j l Hj. apply H, list_elem_of_In, list_elem_of_lookup. eauto.
  - intros H l Hl. apply list_elem_of_In, list_elem_of_lookup in Hl as [j Hj]. eauto.
Qed.

Lemma first_invalid_not_full (lines : cache_set) (k : nat) :
  first_invalid_at lines k -> forallb valid lines = false.
Proof.
  intros [(l & Hl & Hv) _].
  destruct (forallb valid lines) eqn:Hf; [|done].
  rewrite forallb_valid_true in Hf. specialize (Hf _ _ Hl). congruence.
Qed.

(** [get_empty_line] finds the lowest invalid line when there is one. *)
Lemma get_empty_line_loop_first (n i : nat) (lines : cache_set) (k : nat) :
  length lines = (i + n)%nat -> (i <= k)%nat ->
  first_invalid_at lines k ->
  get_empty_line_loop n i lines = Some k.
Proof.
  revert i. induction n as [|n IH]; intros i Hlen Hik Hk.
  - destruct Hk as [(l & Hl & _) _]. apply lookup_lt_Some in Hl. lia.
  - destruct (lookup_lt_is_Some_2 lines i ltac:(lia)) as [line Hline].
    simpl. rewrite Hline. simpl.
    destruct (decide (i = k)) as [->|Hne].
    + destruct Hk as [(l & Hl & Hv) _]. rewrite Hline in Hl.
      injection Hl as ->. by rewrite Hv.
    + destruct Hk as [Hex Hlow].
      rewrite (Hlow i line) by (done || lia).
      apply IH; [lia | lia | by split].
Qed.

Lemma get_LRU_loop_seen (n i : nat) (lines : cache_set) (k : nat) (mn mx : Z) :
  length lines = (i + n)%nat ->
  lru_seen lines i k mn mx ->
  exists k' mn' mx',
    get_LRU_loop n i lines k mn mx = Some (k', mn', mx') /\
    lru_seen lines (i + n) k' mn' mx'.
Proof.
  revert i k mn mx. induction n as [|n IH]; intros i k mn mx Hlen Hseen.
  - exists k, mn, mx. simpl. by rewrite Nat.add_0_r.
  - destruct (lookup_lt_is_Some_2 lines i ltac:(lia)) as [line Hline].
    simpl. rewrite Hline. simpl.
    replace (i + S n)%nat with (S i + n)%nat by lia.
    apply IH; [lia|].
    destruct Hseen as (Hki & (lk & Hlk & Hmn) & Hall & (jm & lm & Hjm & Hlm & Hmx)).
    destruct (Z.ltb_spec (access_count line) mn) as [Hlt|Hge];
      destruct (Z.ltb_spec mx (access_count line)) as [Hgt|Hle];
      (split; [lia|]); (split; [by eauto|]);
      (split; [|first [by (exists i, line; split; [lia|done])
                     |by (exists jm, lm; split; [lia|done])]]);
      intros j l Hj Hl;
      (destruct (decide (j = i)) as [->|Hne];
        [rewrite Hline in Hl; injection Hl as <-; lia
        |destruct (Hall j l ltac:(lia) Hl) as [Hr Hs]; lia]).
Qed.

Lemma get_LRU_spec (lines : cache_set) (par : cache_param_t) :
  length lines = Z.to_nat (par_E par) -> 1 <= par_E par ->
  exists k mn mx,
    get_LRU lines par = Some (k, mn, mx) /\
    first_min_at lines k mn /\ max_count_of lines mx.
Proof.
  intros Hlen HE.
  destruct (lookup_lt_is_Some_2 lines 0 ltac:(lia)) as [first Hfirst].
  unfold get_LRU. rewrite Hfirst. simpl.
  destruct (get_LRU_loop_seen (Z.to_nat (par_E par) - 1) 1 lines 0
              (access_count first) (access_count first))
    as (k & mn & mx & Hrun & Hk & (lk & Hlk & Hmn) & Hall & (jm & lm & _ & Hlm & Hmx)).
  { lia. }
  { split; [lia|]. split; [by eauto|]. split.
    - intros j l Hj Hl. assert (j = 0%nat) as -> by lia.
      rewrite Hfirst in Hl. injection Hl as <-. lia.
    - exists 0%nat, first. split; [lia|done]. }
  exists k, mn, mx. split; [done|].
  assert (Hin : forall j l, lines !! j = Some l -> (j < 1 + (Z.to_nat (par_E par) - 1))%nat).
  { intros j l Hl. apply lookup_lt_Some in Hl. lia. }
  split.
  - split; [by eauto|]. split.
    + intros j l Hl. apply (Hall j l); eauto.
    + intros j l Hj Hl. apply (Hall j l); eauto.
  - split; [by eauto|]. intros j l Hl. apply (Hall j l); eauto.
Qed.

Lemma first_min_at_unique (lines : cache_set) (k k' : nat) (m m' : Z) :
  first_min_at lines k m -> first_min_at lines k' m' -> k = k' /\ m = m'.
Proof.
  intros [(l & Hl & Hm) [Hle Hlt]] [(l' & Hl' & Hm') [Hle' Hlt']].
  pose proof (Hle _ _ Hl') as H1. pose proof (Hle' _ _ Hl) as H2.
  assert (m = m') by lia. split; [|done].
  destruct (Nat.lt_trichotomy k k') as [Hc|[Hc|Hc]]; [|done|].
  - specialize (Hlt' _ _ Hc Hl). lia.
  - specialize (Hlt _ _ Hc Hl'). lia.
Qed.

Lemma max_count_of_unique (lines : cache_set) (m m' : Z) :
  max_count_of lines m -> max_count_of lines m' -> m = m'.
Proof.
  intros [(j & l & Hl & Hm) Hle] [(j' & l' & Hl' & Hm') Hle'].
  pose proof (Hle _ _ Hl'). pose proof (Hle' _ _ Hl). lia.
Qed.

Lemma first_invalid_at_unique (lines : cache_set) (k k' : nat) :
  first_invalid_at lines k -> first_invalid_at lines k' -> k = k'.
Proof.
  intros [(l & Hl & Hv) Hlow] [(l' & Hl' & Hv') Hlow'].
  destruct (Nat.lt_trichotomy k k') as [Hc|[Hc|Hc]]; [|done|].
  - specialize (Hlow' _ _ Hc Hl). congruence.
  - specialize (Hlow _ _ Hc Hl'). congruence.
Qed.

(** ** One access, case by case *)

Section OneAccess.

Variables (this_cache : cache) (par : cache_param_t) (a : Z).
Variables (setIndex input_tag : Z) (query_set : cache_set).

Hypothesis Hsplit : address_split par a = Some (setIndex, input_tag).
Hypothesis Hset : this_cache !! Z.to_nat setIndex = Some query_set.
Hypothesis Hlen : length query_set = Z.to_nat (par_E par).

(** Hit: the one resident line with the tag is bumped. *)
Lemma simulate_cache_hit (k : nat) (line : set_line) :
  no_duplicate_tags query_set ->
  query_set !! k = Some line -> holds_tag input_tag line ->
  simulate_cache this_cache par a
  = Some (<[Z.to_nat setIndex :=
              <[k := set_access_count line (int_add (access_count line) 1)]>
                query_set]> this_cache,
          set_hits par (int_add (par_hits par) 1)).
Proof.
  intros Hnd Hk Hholds.
  unfold simulate_cache. rewrite Hsplit, Hset. simpl.
  rewrite <- Hlen, hit_scan_closed.
  destruct (count_matches_unique _ _ _ _ Hnd Hk Hholds) as [-> ->]. simpl.
  destruct (Z.eqb_spec (par_hits par) (int_add (par_hits par) 1)) as [Heq|_].
  - symmetry in Heq. by apply int_add_1_neq in Heq.
  - reflexivity.
Qed.

Hypothesis Hmiss : forall j l, query_set !! j = Some l -> ~ holds_tag input_tag l.

(** Miss with a free line: the lowest invalid line is filled. *)
Lemma simulate_cache_fill (k : nat) (mx : Z) :
  1 <= par_E par ->
  first_invalid_at query_set k -> max_count_of query_set mx ->
  simulate_cache this_cache par a
  = Some (<[Z.to_nat setIndex :=
              <[k := mk_line true (int_add mx 1) input_tag]> query_set]>
            this_cache,
          set_misses par (int_add (par_misses par) 1)).
Proof.
  intros HE Hk Hmx.
  unfold simulate_cache. rewrite Hsplit, Hset. simpl.
  rewrite <- Hlen, hit_scan_closed.
  destruct (count_matches_none _ _ Hmiss) as [-> ->]. simpl.
  rewrite Z.eqb_refl.
  destruct (get_LRU_spec query_set (set_misses par (int_add (par_misses par) 1)))
    as (k' & mn & mx' & -> & _ & Hmx'); [done|done|].
  rewrite (max_count_of_unique _ _ _ Hmx' Hmx).
  rewrite (first_invalid_not_full _ _ Hk).
  unfold get_empty_line. simpl. rewrite <- Hlen.
  rewrite (get_empty_line_loop_first _ _ _ k) by (done || lia). simpl.
  destruct Hk as [(l & -> & _) _]. reflexivity.
Qed.

(** Miss in a full set: the first line of least recency is replaced. *)
Lemma simulate_cache_evict (k : nat) (mn mx : Z) :
  1 <= par_E par ->
  (forall j l, query_set !! j = Some l -> valid l = true) ->
  first_min_at query_set k mn -> max_count_of query_set mx ->
  simulate_cache this_cache par a
  = Some (<[Z.to_nat setIndex :=
              <[k := mk_line true (int_add mx 1) input_tag]> query_set]>
            this_cache,
          set_evictions (set_misses par (int_add (par_misses par) 1))
                        (int_add (par_evictions par) 1)).
Proof.
  intros HE Hfull Hk Hmx.
  unfold simulate_cache. rewrite Hsplit, Hset. simpl.
  rewrite <- Hlen, hit_scan_closed.
  destruct (count_matches_none _ _ Hmiss) as [-> ->]. simpl.
  rewrite Z.eqb_refl.
  destruct (get_LRU_spec query_set (set_misses par (int_add (par_misses par) 1)))
    as (k' & mn' & mx' & -> & Hk' & Hmx'); [done|done|].
  rewrite (max_count_of_unique _ _ _ Hmx' Hmx).
  destruct (first_min_at_unique _ _ _ _ _ Hk' Hk) as [-> ->].
  rewrite (proj2 (forallb_valid_true query_set) Hfull).
  destruct Hk as [(l & Hl & _) _]. rewrite Hl. simpl.
  by rewrite (Hfull _ _ Hl).
Qed.

End OneAccess.

(** ** Every access is one step of the replacement engine *)

Lemma set_index_in_range (s b a : Z) :
  0 <= s -> 0 <= (a / 2 ^ b) mod 2 ^ s < 2 ^ s.
Proof. intros Hs. apply Z.mod_pos_bound, Z.pow_pos_nonneg; lia. Qed.

(** Resident or not, and full or not: the three cases of an access. *)
Lemma set_cases (t : Z) (lines : cache_set) :
  (exists k line, lines !! k = Some line /\ holds_tag t line) \/
  ((forall j l, lines !! j = Some l -> ~ holds_tag t l) /\
   ((exists k, first_invalid_at lines k) \/
    (forall j l, lines !! j = Some l -> valid l = true))).
Proof.
  destruct (list_find (fun l => matches t l = true) lines) as [[k line]|] eqn:Hfind.
  - left. apply list_find_Some in Hfind as (Hk & Hm & _).
    exists k, line. split; [done|]. by apply matches_true.
  - right. apply list_find_None in Hfind. rewrite Forall_lookup in Hfind. split.
    { intros j l Hl Hh. apply (Hfind _ _ Hl). by apply matches_true. }
    destruct (list_find (fun l => valid l = false) lines) as [[k line]|] eqn:Hinv.
    + left. exists k. apply list_find_Some in Hinv as (Hk & Hv & Hlow).
      split; [by eauto|]. intros j l Hj Hl.
      specialize (Hlow _ _ Hl Hj). by destruct (valid l).
    + right. apply list_find_None in Hinv. rewrite Forall_lookup in Hinv.
      intros j l Hl. specialize (Hinv _ _ Hl). by destruct (valid l).
Qed.

Lemma access_target (par : cache_param_t) (c : cache) (a : Z) :
  valid_config par -> cache_ok par c ->
  exists set,
    address_split par a
    = Some ((a / 2 ^ par_b par) mod 2 ^ par_s par,
            a / 2 ^ (par_s par + par_b par)) /\
    c !! Z.to_nat ((a / 2 ^ par_b par) mod 2 ^ par_s par) = Some set /\
    length set = Z.to_nat (par_E par) /\ no_duplicate_tags set.
Proof.
  intros [Hs Hb Hsb HE] (Hlen & Hshape & Hnd).
  pose proof (set_index_in_range (par_s par) (par_b par) a ltac:(lia)) as Hsi.
  destruct (lookup_lt_is_Some_2 c (Z.to_nat ((a / 2 ^ par_b par) mod 2 ^ par_s par)))
    as [set Hset]; [lia|].
  exists set. split; [apply address_split_defined; lia|]. split; [done|].
  split; [apply (Forall_lookup_1 _ _ _ _ Hshape Hset)
         |apply (Forall_lookup_1 _ _ _ _ Hnd Hset)].
Qed.

(** The code refines the engine: on a well-formed cache an access is
    defined, touches the set selected by the address only, and does there
    one step of the engine. *)
Lemma simulate_cache_engine (par : cache_param_t) (c : cache) (a : Z) :
  valid_config par -> cache_ok par c ->
  exists setIndex input_tag query_set lines' par',
    address_split par a = Some (setIndex, input_tag) /\
    c !! Z.to_nat setIndex = Some query_set /\
    engine_step par input_tag query_set lines' par' /\
    simulate_cache c par a = Some (<[Z.to_nat setIndex := lines']> c, par').
Proof.
  intros Hcfg Hok.
  destruct (access_target par c a Hcfg Hok) as (set & Hsplit & Hset & Hlen & Hnd).
  pose proof (vc_E _ Hcfg) as HE.
  destruct (get_LRU_spec set par Hlen HE) as (km & mn & mx & _ & Hmin & Hmax).
  eexists _, _, set.
  destruct (set_cases (a / 2 ^ (par_s par + par_b par)) set)
    as [(k & line & Hk & Hh)|[Hmiss [[k Hk]|Hfull]]].
  - eexists _, _. split; [done|]. split; [done|]. split.
    + by apply (engine_hit _ _ _ k line).
    + by eapply simulate_cache_hit.
  - eexists _, _. split; [done|]. split; [done|]. split.
    + by apply (engine_fill _ _ _ k mx).
    + by eapply simulate_cache_fill.
  - eexists _, _. split; [done|]. split; [done|]. split.
    + by apply (engine_evict _ _ _ km mn mx).
    + by eapply simulate_cache_evict.
Qed.

(** ** What an engine step preserves *)

Lemma no_duplicate_tags_insert_same (lines : cache_set) (k : nat) (line line' : set_line) :
  lines !! k = Some line ->
  valid line' = valid line -> tag line' = tag line ->
  no_duplicate_tags lines -> no_duplicate_tags (<[k := line']> lines).
Proof.
  intros Hk Hv Ht Hnd i j li lj Hi Hj Hvi Hvj Hij.
  apply list_lookup_insert_Some in Hi as [(-> & <- & _)|[Hne Hi]];
    apply list_lookup_insert_Some in Hj as [(-> & <- & _)|[Hne' Hj]]; [done|..].
  - apply (Hnd i j line lj); congruence.
  - apply (Hnd i j li line); congruence.
  - by apply (Hnd i j li lj).
Qed.

Lemma no_duplicate_tags_insert_fresh (lines : cache_set) (k : nat) (n t : Z) :
  (forall j l, lines !! j = Some l -> ~ holds_tag t l) ->
  no_duplicate_tags lines ->
  no_duplicate_tags (<[k := mk_line true n t]> lines).
Proof.
  intros Hmiss Hnd i j li lj Hi Hj Hvi Hvj Hij.
  apply list_lookup_insert_Some in Hi as [(-> & <- & _)|[Hne Hi]];
    apply list_lookup_insert_Some in Hj as [(-> & <- & _)|[Hne' Hj]]; [done|..].
  - exfalso. apply (Hmiss _ _ Hj). by split.
  - exfalso. apply (Hmiss _ _ Hi). by split.
  - by apply (Hnd i j li lj).
Qed.

Lemma engine_step_shape (par par' : cache_param_t) (t : Z) (set set' : cache_set) :
  engine_step par t set set' par' ->
  length set' = length set /\ same_config par par' /\
  (no_duplicate_tags set -> no_duplicate_tags set').
Proof.
  intros Hstep. destruct Hstep as [k line Hk Hh|k mx Hmiss Hk Hmx|k mn mx Hmiss Hfull Hk Hmx];
    (split; [apply length_insert|]); (split; [done|]).
  - by apply (no_duplicate_tags_insert_same _ _ line).
  - by apply no_duplicate_tags_insert_fresh.
  - by apply no_duplicate_tags_insert_fresh.
Qed.

(** Below [INT_MAX] accesses nothing wraps: the step is a hit, a miss or a
    miss with an eviction on the counters, and recencies grow by at most
    one. *)
Lemma engine_step_counts (n : Z) (par par' : cache_param_t) (t : Z)
    (set set' : cache_set) :
  n < INT_MAX ->
  0 <= par_hits par -> 0 <= par_evictions par <= par_misses par ->
  par_hits par + par_misses par = n ->
  Forall (fun l => 0 <= access_count l <= n) set ->
  engine_step par t set set' par' ->
  Forall (fun l => 0 <= access_count l <= n + 1) set' /\
  (is_hit par par' \/ is_miss par par' \/ is_miss_eviction par par').
Proof.
  intros Hn Hh He Hsum Hall Hstep.
  assert (Hmono : Forall (fun l => 0 <= access_count l <= n + 1) set).
  { eapply Forall_impl; [exact Hall|]. simpl. intros l Hl. lia. }
  rewrite Forall_lookup in Hall. unfold INT_MAX in Hn.
  destruct Hstep as [k line Hk _|k mx _ _ [(j & l & Hl & Hmx) _]
                    |k mn mx _ _ _ [(j & l & Hl & Hmx) _]].
  - pose proof (Hall _ _ Hk) as Hr. simpl in Hr.
    rewrite !int_add_small by int_range.
    split; [|by left].
    apply Forall_insert; [done|]. simpl. lia.
  - pose proof (Hall _ _ Hl) as Hr. simpl in Hr.
    rewrite !int_add_small by int_range.
    split; [|by right; left].
    apply Forall_insert; [done|]. simpl. lia.
  - pose proof (Hall _ _ Hl) as Hr. simpl in Hr.
    rewrite !int_add_small by int_range.
    split; [|by right; right].
    apply Forall_insert; [done|]. simpl. lia.
Qed.

Lemma valid_config_same (par par' : cache_param_t) :
  same_config par par' -> valid_config par -> valid_config par'.
Proof. intros (Hs & Hb & HE) [? ? ? ?]. split; lia. Qed.

(** One access from a well-formed cache: defined, and well-formed again. *)
Lemma step_cache_ok (par : cache_param_t) (c : cache) (a : Z) :
  valid_config par -> cache_ok par c ->
  exists c' par',
    simulate_cache c par a = Some (c', par') /\
    same_config par par' /\ cache_ok par' c'.
Proof.
  intros Hcfg Hok.
  destruct (simulate_cache_engine par c a Hcfg Hok)
    as (si & t & set & lines' & par' & _ & Hset & Hstep & Hrun).
  destruct (engine_step_shape _ _ _ _ _ Hstep) as (Hlen' & Hsame & Hnd').
  exists (<[Z.to_nat si := lines']> c), par'. split; [done|]. split; [done|].
  destruct Hok as (Hlen & Hshape & Hnd).
  destruct Hsame as (Hs & Hb & HE).
  split; [by rewrite length_insert, Hs|]. split.
  - apply Forall_insert.
    + eapply Forall_impl; [exact Hshape|]. simpl. intros l Hl. by rewrite HE.
    + rewrite Hlen', HE. apply (Forall_lookup_1 _ _ _ _ Hshape Hset).
  - apply Forall_insert; [done|]. apply Hnd', (Forall_lookup_1 _ _ _ _ Hnd Hset).
Qed.

(** The same with the counters, while fewer than [INT_MAX] accesses were
    made. *)
Lemma step_counters_ok (n : Z) (par : cache_param_t) (c : cache) (a : Z) :
  valid_config par -> cache_ok par c -> counters_ok n par c -> n < INT_MAX ->
  exists c' par',
    simulate_cache c par a = Some (c', par') /\
    counters_ok (n + 1) par' c' /\
    (is_hit par par' \/ is_miss par par' \/ is_miss_eviction par par').
Proof.
  intros Hcfg Hok (Hh & He & Hsum & Hall) Hn.
  destruct (simulate_cache_engine par c a Hcfg Hok)
    as (si & t & set & lines' & par' & _ & Hset & Hstep & Hrun).
  destruct (engine_step_counts n _ _ _ _ _ Hn Hh He Hsum
              (Forall_lookup_1 _ _ _ _ Hall Hset) Hstep) as [Hall' Hout].
  exists (<[Z.to_nat si := lines']> c), par'. split; [done|]. split; [|done].
  assert (Hc : Forall (Forall (fun l => 0 <= access_count l <= n + 1))
                 (<[Z.to_nat si := lines']> c)).
  { apply Forall_insert; [|done].
    eapply Forall_impl; [exact Hall|]. simpl. intros l Hl.
    eapply Forall_impl; [exact Hl|]. simpl. intros x Hx. lia. }
  unfold counters_ok.
  destruct Hout as [Ho | [Ho | Ho]]; red in Ho; subst par'; simpl;
    repeat split; try done; lia.
Qed.

(** ** Runs *)

Lemma address_split_same_config (par par' : cache_param_t) (a : Z) :
  same_config par par' -> address_split par' a = address_split par a.
Proof. intros (Hs & Hb & _). unfold address_split. by rewrite Hs, Hb. Qed.

Lemma same_config_trans (p1 p2 p3 : cache_param_t) :
  same_config p1 p2 -> same_config p2 p3 -> same_config p1 p3.
Proof. unfold same_config. intros (? & ? & ?) (? & ? & ?). repeat split; congruence. Qed.

Lemma run_accesses_app (c : cache) (par : cache_param_t) (l1 l2 : list Z) :
  run_accesses c par (l1 ++ l2)
  = match run_accesses c par l1 with
    | Some (c', par') => run_accesses c' par' l2
    | None => None
    end.
Proof.
  revert c par. induction l1 as [|a l1 IH]; intros c par; simpl; [done|].
  destruct (simulate_cache c par a) as [[c' par']|]; [apply IH|done].
Qed.

(** The replay loop issues exactly the accesses listed by [issued]. *)
Lemma replay_trace_issued (c : cache) (par : cache_param_t) (trace : list trace_record) :
  replay_trace c par trace = run_accesses c par (issued trace).
Proof.
  revert c par. induction trace as [|r trace IH]; intros c par; [done|].
  unfold issued. simpl. fold (issued trace).
  rewrite run_accesses_app.
  unfold replay_record, accesses_of.
  destruct (Ascii.eqb (cmd r) "I"); [simpl; apply IH|].
  destruct (Ascii.eqb (cmd r) "L").
  { simpl. destruct (simulate_cache c par (address r)) as [[c' par']|]; [apply IH|done]. }
  destruct (Ascii.eqb (cmd r) "S").
  { simpl. destruct (simulate_cache c par (address r)) as [[c' par']|]; [apply IH|done]. }
  destruct (Ascii.eqb (cmd r) "M"); [|simpl; apply IH].
  simpl. destruct (simulate_cache c par (address r)) as [[c' par']|]; [|done].
  destruct (simulate_cache c' par' (address r)) as [[c'' par'']|]; [apply IH|done].
Qed.

(** Any run from a well-formed cache is defined and ends well-formed. *)
Lemma run_cache_ok (addrs : list Z) (par : cache_param_t) (c : cache) :
  valid_config par -> cache_ok par c ->
  exists c' par',
    run_accesses c par addrs = Some (c', par') /\
    same_config par par' /\ cache_ok par' c'.
Proof.
  revert par c. induction addrs as [|a addrs IH]; intros par c Hcfg Hok.
  - exists c, par. split; [done|]. split; [by repeat split|done].
  - destruct (step_cache_ok par c a Hcfg Hok) as (c1 & par1 & Hstep & Hsame & Hok1).
    destruct (IH par1 c1 (valid_config_same _ _ Hsame Hcfg) Hok1)
      as (c' & par' & Hrun & Hsame' & Hok').
    exists c', par'. simpl. rewrite Hstep.
    split; [done|]. split; [by eapply same_config_trans|done].
Qed.

Lemma run_counters_ok (addrs : list Z) (n : Z) (par : cache_param_t) (c : cache)
    (c' : cache) (par' : cache_param_t) :
  valid_config par -> cache_ok par c -> counters_ok n par c ->
  n + Z.of_nat (length addrs) <= INT_MAX ->
  run_accesses c par addrs = Some (c', par') ->
  counters_ok (n + Z.of_nat (length addrs)) par' c'.
Proof.
  revert n par c. induction addrs as [|a addrs IH]; intros n par c Hcfg Hok Hcnt Hn Hrun.
  - simpl in *. injection Hrun as <- <-. by rewrite Z.add_0_r.
  - simpl length in *. simpl in Hrun.
    destruct (step_cache_ok par c a Hcfg Hok) as (c1 & par1 & Hstep & Hsame & Hok1).
    destruct (step_counters_ok n par c a Hcfg Hok Hcnt ltac:(lia))
      as (c1' & par1' & Hstep' & Hcnt1 & _).
    rewrite Hstep in Hstep'. injection Hstep' as <- <-.
    rewrite Hstep in Hrun.
    replace (n + Z.of_nat (S (length addrs))) with (n + 1 + Z.of_nat (length addrs)) by lia.
    apply (IH (n + 1) par1 c1); [by eapply valid_config_same|done|done|lia|done].
Qed.

Lemma no_duplicate_tags_fresh (n : nat) : no_duplicate_tags (replicate n fresh_line).
Proof.
  intros i j li lj Hi _ Hv _ _. apply lookup_replicate in Hi as [-> _]. done.
Qed.

Lemma build_cache_ok (par : cache_param_t) (block_size : Z) :
  valid_config par ->
  exists c0,
    build_cache (num_sets_of (par_s par)) (par_E par) block_size = Some c0 /\
    cache_ok par c0 /\
    Forall (Forall (fun l => 0 <= access_count l <= 0)) c0.
Proof.
  intros [Hs Hb Hsb HE]. unfold build_cache, num_sets_of.
  destruct (Z.ltb_spec (par_s par) 0) as [?|_]; [lia|].
  assert (Hpow : 2 ^ par_s par <= 2 ^ 30) by (apply Z.pow_le_mono_r; lia).
  rewrite decide_True by (unfold INT_MAX; lia).
  eexists. split; [done|]. split.
  - split; [by rewrite length_replicate|]. split.
    + apply Forall_replicate. by rewrite length_replicate.
    + apply Forall_replicate, no_duplicate_tags_fresh.
  - apply Forall_replicate, Forall_replicate. simpl. lia.
Qed.

Lemma bit_pow_defined (b : Z) : 0 <= b < 63 -> bit_pow b = Some (2 ^ b).
Proof.
  intros Hb. unfold bit_pow. rewrite decide_True by done.
  by rewrite Z.shiftl_mul_pow2, Z.mul_1_l by lia.
Qed.

(** Every list of accesses leads somewhere. *)
Lemma reachable_total (s E b : Z) (addrs : list Z) :
  valid_config (initial_par s E b) ->
  exists c par, reachable s E b addrs c par.
Proof.
  intros Hcfg.
  destruct (build_cache_ok (initial_par s E b) (2 ^ b) Hcfg) as (c0 & Hb & Hok & _).
  destruct (run_cache_ok addrs _ _ Hcfg Hok) as (c & par & Hrun & _).
  exists c, par, (2 ^ b), c0. split; [|done].
  destruct Hcfg as [Hs Hb' Hsb _]. simpl in *. apply bit_pow_defined. lia.
Qed.

Lemma reachable_ok (s E b : Z) (addrs : list Z) (c : cache) (par : cache_param_t) :
  valid_config (initial_par s E b) -> reachable s E b addrs c par ->
  valid_config par /\ cache_ok par c /\ same_config (initial_par s E b) par.
Proof.
  intros Hcfg (bs & c0 & _ & Hbuild & Hrun).
  destruct (build_cache_ok (initial_par s E b) bs Hcfg) as (c0' & Hb & Hok & _).
  simpl in Hb. rewrite Hbuild in Hb. injection Hb as <-.
  destruct (run_cache_ok addrs _ _ Hcfg Hok) as (c' & par' & Hrun' & Hsame & Hok').
  rewrite Hrun in Hrun'. injection Hrun' as <- <-.
  split; [by eapply valid_config_same|done].
Qed.

Lemma reachable_counters (s E b : Z) (addrs : list Z) (c : cache) (par : cache_param_t) :
  valid_config (initial_par s E b) -> reachable s E b addrs c par ->
  Z.of_nat (length addrs) <= INT_MAX ->
  counters_ok (Z.of_nat (length addrs)) par c.
Proof.
  intros Hcfg (bs & c0 & _ & Hbuild & Hrun) Hn.
  destruct (build_cache_ok (initial_par s E b) bs Hcfg) as (c0' & Hb & Hok & Hzero).
  simpl in Hb. rewrite Hbuild in Hb. injection Hb as <-.
  apply (run_counters_ok addrs 0 _ _ _ _ Hcfg Hok); [|lia|done].
  unfold counters_ok. simpl. repeat split; (done || lia).
Qed.


(** When the option loop ends normally, [main] goes on with the values it
    left. *)
Lemma main_parsed (returns : list getopt_return) (s E b : Z)
    (trace_file : option (list trace_record)) :
  options_parse_to returns s E b trace_file ->
  main returns = main_after_getopt s E b trace_file.
Proof. unfold options_parse_to, main. by intros ->. Qed.

(** What [main] prints is the counters of the state its trace leads to. *)
Lemma main_summary (s E b : Z) (trace : list trace_record) (c : cache)
    (par : cache_param_t) :
  valid_config (initial_par s E b) ->
  reachable s E b (issued trace) c par ->
  main_after_getopt s E b (Some trace)
  = summary (par_hits par) (par_misses par) (par_evictions par).
Proof.
  intros [Hs Hb Hsb HE] (bs & c0 & Hbs & Hbuild & Hrun). simpl in *.
  unfold main_after_getopt. simpl.
  destruct (Z.eqb_spec s 0) as [?|_]; [lia|].
  destruct (Z.eqb_spec E 0) as [?|_]; [lia|].
  destruct (Z.eqb_spec b 0) as [?|_]; [lia|]. simpl.
  rewrite Hbs, Hbuild, replay_trace_issued.
  unfold initial_par in Hrun. unfold set_evictions, set_misses, set_hits. simpl.
  by rewrite Hrun.
Qed.

(** ** The access operation on reachable states *)

Lemma counters_ok_line (n : Z) (par : cache_param_t) (c : cache)
    (i k : nat) (set : cache_set) (line : set_line) :
  counters_ok n par c -> c !! i = Some set -> set !! k = Some line ->
  0 <= access_count line <= n.
Proof.
  intros (_ & _ & _ & Hall) Hset Hline.
  apply (Forall_lookup_1 _ _ _ _ (Forall_lookup_1 _ _ _ _ Hall Hset) Hline).
Qed.

Lemma counters_ok_max (n : Z) (par : cache_param_t) (c : cache)
    (i : nat) (set : cache_set) (mx : Z) :
  counters_ok n par c -> c !! i = Some set -> max_count_of set mx -> 0 <= mx <= n.
Proof.
  intros Hcnt Hset [(j & l & Hl & <-) _]. by eapply counters_ok_line.
Qed.



Lemma demo_valid_config : valid_config (initial_par 1 2 1).
Proof. split; simpl; lia. Defined.

Lemma demo_reachable : reachable 1 2 1 [4; 8] demo_cache demo_par.
Proof.
  exists 2, (replicate 2 (replicate 2 fresh_line)).
  split; [reflexivity|]. split; reflexivity.
Defined.



(** ** Sequences of accesses *)

(** After any engine step the input tag is resident. *)
Lemma engine_step_resident (par par' : cache_param_t) (t : Z) (set set' : cache_set) :
  engine_step par t set set' par' ->
  exists k line, set' !! k = Some line /\ holds_tag t line.
Proof.
  intros [k line Hk [Hv Ht]|k mx _ [(l & Hl & _) _] _|k mn mx _ _ [(l & Hl & _) _] _].
  - exists k, (set_access_count line (int_add (access_count line) 1)).
    split; [|by split].
    apply list_lookup_insert_eq. by apply lookup_lt_Some in Hk.
  - exists k, (mk_line true (int_add mx 1) t). split; [|by split].
    apply list_lookup_insert_eq. by apply lookup_lt_Some in Hl.
  - exists k, (mk_line true (int_add mx 1) t). split; [|by split].
    apply list_lookup_insert_eq. by apply lookup_lt_Some in Hl.
Qed.


(** An access to a tag that is resident is a hit, whatever came before. *)
Lemma resident_then_hit (par : cache_param_t) (c : cache) (a setIndex input_tag : Z)
    (query_set : cache_set) (k : nat) (line : set_line) :
  cache_ok par c ->
  address_split par a = Some (setIndex, input_tag) ->
  c !! Z.to_nat setIndex = Some query_set ->
  query_set !! k = Some line -> holds_tag input_tag line ->
  exists c',
    simulate_cache c par a
    = Some (c', set_hits par (int_add (par_hits par) 1)).
Proof.
  intros (_ & Hshape & Hnd) Hsplit Hset Hk Hholds.
  eexists.
  apply (simulate_cache_hit c par a setIndex input_tag query_set Hsplit Hset
           (Forall_lookup_1 _ _ _ _ Hshape Hset) k line
           (Forall_lookup_1 _ _ _ _ Hnd Hset) Hk Hholds).
Qed.

(** Repeating an access at once is a hit. *)
Lemma access_twice (par par1 : cache_param_t) (c c1 : cache) (a : Z) :
  valid_config par -> cache_ok par c ->
  simulate_cache c par a = Some (c1, par1) ->
  exists c2,
    simulate_cache c1 par1 a
    = Some (c2, set_hits par1 (int_add (par_hits par1) 1)).
Proof.
  intros Hcfg Hok Hrun.
  destruct (simulate_cache_engine par c a Hcfg Hok)
    as (si & t & set & lines' & par' & Hsplit & Hset & Hstep & Hrun').
  rewrite Hrun in Hrun'. injection Hrun' as -> ->.
  destruct (step_cache_ok par c a Hcfg Hok) as (c1' & par1' & Hrun1 & Hsame & Hok1).
  rewrite Hrun in Hrun1. injection Hrun1 as <- <-.
  destruct (engine_step_resident _ _ _ _ _ Hstep) as (k & line & Hk & Hholds).
  apply (resident_then_hit par' _ a si t lines' k line); [done| |
    |done|done].
  - by rewrite (address_split_same_config par par').
  - apply list_lookup_insert_eq. by apply lookup_lt_Some in Hset.
Qed.





(** C8: a cache reached from the freshly built one has no set with two
    valid lines of equal tag, and one more access -- which is defined --
    ends in such a cache again.  The same holds from any cache of the right
    shape without duplicates. *)
Theorem C8_no_duplicate_resident_tags (s E b : Z) (addrs : list Z) (c : cache)
    (par : cache_param_t) :
  valid_config (initial_par s E b) ->
  reachable s E b addrs c par ->
  Forall no_duplicate_tags c /\
  (forall a, exists c' par',
     simulate_cache c par a = Some (c', par') /\ Forall no_duplicate_tags c') /\
  (forall par0 c0 a c' par',
     valid_config par0 -> cache_ok par0 c0 ->
     simulate_cache c0 par0 a = Some (c', par') -> Forall no_duplicate_tags c').
Proof.
  intros Hcfg Hreach.
  destruct (reachable_ok _ _ _ _ _ _ Hcfg Hreach) as (Hcfg' & Hok & _).
  split; [apply Hok|]. split.
  - intros a.
    destruct (step_cache_ok par c a Hcfg' Hok) as (c' & par' & Hrun & _ & Hok').
    exists c', par'. split; [done|apply Hok'].
  - intros par0 c0 a c' par' Hcfg0 Hok0 Hrun.
    destruct (step_cache_ok par0 c0 a Hcfg0 Hok0) as (c'' & par'' & Hrun' & _ & Hok').
    rewrite Hrun in Hrun'. injection Hrun' as <- <-. apply Hok'.
Qed.



(** C8 on the running example. *)
Lemma C8_no_duplicate_witness :
  Forall no_duplicate_tags demo_cache /\
  (forall a, exists c' par',
     simulate_cache demo_cache demo_par a = Some (c', par') /\
     Forall no_duplicate_tags c') /\
  (forall par0 c0 a c' par',
     valid_config par0 -> cache_ok par0 c0 ->
     simulate_cache c0 par0 a = Some (c', par') -> Forall no_duplicate_tags c').
Proof.
  apply (C8_no_duplicate_resident_tags 1 2 1 [4; 8] demo_cache demo_par).
  - exact demo_valid_config.
  - exact demo_reachable.
Defined.


(** ** The scenario of three loads *)

(** The scenario does not end in one hit and two misses. *)
Lemma C5_scenario_counterexample :
  main [opt_s 1; opt_E 1; opt_b 1; opt_t scenario_trace] <> summary 1 2 0 /\
  main_after_getopt 1 1 1 (Some scenario_trace) <> summary 1 2 0.
Proof. split; vm_compute; discriminate. Qed.

(** C5, amended: with [s = 1], [E = 1], [b = 1] the loads of 0x10, 0x20 and
    0x10 end in no hit, three misses and two evictions: both addresses have
    bit 1 clear, so both select set 0, with tags 4 and 8, and each load
    replaces the line the previous one brought in. *)
Theorem C5_scenario_conflicts :
  main_after_getopt 1 1 1 (Some scenario_trace) = summary 0 3 2 /\
  main [opt_s 1; opt_E 1; opt_b 1; opt_t scenario_trace] = summary 0 3 2 /\
  address_split (initial_par 1 1 1) 0x10 = Some (0, 4) /\
  address_split (initial_par 1 1 1) 0x20 = Some (0, 8).
Proof. split; [|split; [|split]]; reflexivity. Qed.

(** ** Address decomposition *)

(** With [s = 1] and [b = 63] the tag would be [address >> 64]: no result. *)
Lemma C7_split_counterexample :
  1 <= par_s (initial_par 1 1 63) /\ 1 <= par_b (initial_par 1 1 63) /\
  0 <= 0x10 < 2 ^ 64 /\
  address_split (initial_par 1 1 63) 0x10 = None.
Proof. split; [|split; [|split]]; [simpl; lia | simpl; lia | lia | reflexivity]. Qed.

(** C7, amended: for [s, b >= 1] with [s + b <= 63] every 64-bit address is
    split, without failure, into the set index -- the [s] bits above the low
    [b] bits, a number below [2^s] -- and the tag -- the remaining
    [64 - s - b] high bits; together with the offset, the low [b] bits that
    the code leaves aside, they make up the address. *)
Theorem C7_address_split_fields (par : cache_param_t) (a : Z) :
  1 <= par_s par -> 1 <= par_b par -> par_s par + par_b par <= 63 ->
  0 <= a < 2 ^ 64 ->
  exists setIndex input_tag,
    address_split par a = Some (setIndex, input_tag) /\
    setIndex = Z.land (Z.shiftr a (par_b par)) (Z.ones (par_s par)) /\
    input_tag = Z.shiftr a (par_s par + par_b par) /\
    0 <= setIndex < 2 ^ par_s par /\
    0 <= input_tag < 2 ^ (64 - par_s par - par_b par) /\
    0 <= Z.land a (Z.ones (par_b par)) < 2 ^ par_b par /\
    a = input_tag * 2 ^ (par_s par + par_b par) + setIndex * 2 ^ par_b par
        + Z.land a (Z.ones (par_b par)).
Proof.
  intros Hs Hb Hsb Ha.
  set (s := par_s par) in *. set (b := par_b par) in *.
  assert (Hpb : 0 < 2 ^ b) by (apply Z.pow_pos_nonneg; lia).
  assert (Hps : 0 < 2 ^ s) by (apply Z.pow_pos_nonneg; lia).
  exists ((a / 2 ^ b) mod 2 ^ s), (a / 2 ^ (s + b)).
  split; [by apply address_split_defined|].
  rewrite !Z.land_ones, !Z.shiftr_div_pow2 by lia.
  split; [done|]. split; [done|].
  split; [apply Z.mod_pos_bound; lia|].
  split.
  { split; [apply Z.div_pos; [lia|apply Z.pow_pos_nonneg; lia]|].
    apply Z.div_lt_upper_bound; [apply Z.pow_pos_nonneg; lia|].
    rewrite <- Z.pow_add_r by lia.
    replace (s + b + (64 - s - b)) with 64 by lia. lia. }
  split; [apply Z.mod_pos_bound; lia|].
  rewrite (Z.pow_add_r 2 s b), (Z.mul_comm (2 ^ s)) by lia.
  rewrite <- Z.div_div by lia.
  pose proof (Z.div_mod a (2 ^ b) ltac:(lia)) as H1.
  pose proof (Z.div_mod (a / 2 ^ b) (2 ^ s) ltac:(lia)) as H2.
  nia.
Qed.

Lemma C7_address_split_witness :
  exists setIndex input_tag,
    address_split demo_par 0x2d = Some (setIndex, input_tag) /\
    setIndex = Z.land (Z.shiftr 0x2d 1) (Z.ones 1) /\
    input_tag = Z.shiftr 0x2d (1 + 1) /\
    0 <= setIndex < 2 ^ 1 /\
    0 <= input_tag < 2 ^ (64 - 1 - 1) /\
    0 <= Z.land 0x2d (Z.ones 1) < 2 ^ 1 /\
    0x2d = input_tag * 2 ^ (1 + 1) + setIndex * 2 ^ 1 + Z.land 0x2d (Z.ones 1).
Proof.
  apply (C7_address_split_fields demo_par 0x2d); simpl; lia.
Defined.

(** ** Configuration check *)

(** A negative [E] passes the check: the cache is built, with sets of no
    line, and the trace is replayed. *)
Lemma C9_negative_counterexample :
  -1 <= 0 /\
  options_parse_to [opt_s 1; opt_E (-1); opt_b 1; opt_t [mk_record "I" 0 4]]
                   1 (-1) 1 (Some [mk_record "I" 0 4]) /\
  build_cache (num_sets_of 1) (-1) 2 = Some [[]; []] /\
  main [opt_s 1; opt_E (-1); opt_b 1; opt_t [mk_record "I" 0 4]] = summary 0 0 0 /\
  main_after_getopt 1 (-1) 1 (Some [mk_record "I" 0 4]) = summary 0 0 0.
Proof. split; [lia|]. repeat split; reflexivity. Qed.

Lemma main_after_getopt_zero (s E b : Z) (trace_file : option (list trace_record)) :
  s = 0 \/ E = 0 \/ b = 0 -> main_after_getopt s E b trace_file = printUsage.
Proof.
  intros Hzero. unfold main_after_getopt. simpl.
  destruct (Z.eqb_spec s 0) as [_|Hs]; [done|].
  destruct (Z.eqb_spec E 0) as [_|HE]; [done|].
  destruct (Z.eqb_spec b 0) as [_|Hb]; [done|].
  lia.
Qed.

(** C9, amended: when [s], [E] or [b] is zero -- not given, or given as 0
    -- [main] stops at the check that precedes [build_cache], in the exit
    of [printUsage]: no cache is built and no record is replayed. *)
Theorem C9_zero_parameter_exits (s E b : Z) (trace_file : option (list trace_record)) :
  s = 0 \/ E = 0 \/ b = 0 ->
  main_after_getopt s E b trace_file = usage_exit 0 /\
  (forall returns,
     options_parse_to returns s E b trace_file -> main returns = usage_exit 0).
Proof.
  intros Hzero. split; [by apply main_after_getopt_zero|].
  intros returns Hparse. rewrite (main_parsed _ _ _ _ _ Hparse).
  by apply main_after_getopt_zero.
Qed.

Lemma C9_zero_parameter_witness :
  main_after_getopt 4 0 4 (Some demo_trace) = usage_exit 0 /\
  (forall returns,
     options_parse_to returns 4 0 4 (Some demo_trace) -> main returns = usage_exit 0).
Proof. apply (C9_zero_parameter_exits 4 0 4 (Some demo_trace)). right. left. reflexivity. Defined.

(** The check is the only way from there to a usage exit, and zero values
    are all it catches. *)
Lemma main_usage_exit_only (s E b : Z) (trace_file : option (list trace_record))
    (status : Z) :
  main_after_getopt s E b trace_file = usage_exit status ->
  status = 0 /\ (s = 0 \/ E = 0 \/ b = 0).
Proof.
  unfold main_after_getopt, printUsage. simpl.
  destruct (Z.eqb_spec s 0) as [?|_]; [intros [= <-]; auto|].
  destruct (Z.eqb_spec E 0) as [?|_]; [intros [= <-]; auto|].
  destruct (Z.eqb_spec b 0) as [?|_]; [intros [= <-]; auto|].
  simpl. destruct trace_file as [trace|]; [|done].
  destruct (bit_pow b); [|done].
  destruct (build_cache _ _ _); [|done].
  destruct (replay_trace _ _ _) as [[? ?]|]; done.
Qed.

(** ** Least recently used? *)

(** C6 fails on the running example: after the accesses to tags 1, 2 and 1
    again, set 0 is full and nothing was evicted; both lines have recency
    2.  The access to tag 3 then replaces line 0, which holds tag 1 -- the
    tag touched last -- and keeps tag 2, whose last access is older. *)
Theorem C6_hit_then_wrong_victim :
  address_split (initial_par 1 2 1) 4 = Some (0, 1) /\
  address_split (initial_par 1 2 1) 8 = Some (0, 2) /\
  address_split (initial_par 1 2 1) 12 = Some (0, 3) /\
  last_touch [1; 2; 1] 2 = Some 1%nat /\
  last_touch [1; 2; 1] 1 = Some 2%nat /\
  exists c par,
    reachable 1 2 1 [4; 8; 4] c par /\
    c !! 0%nat = Some [mk_line true 2 1; mk_line true 2 2] /\
    par_evictions par = 0 /\
    simulate_cache c par 12
    = Some (<[0%nat := [mk_line true 3 3; mk_line true 2 2]]> c,
            set_evictions (set_misses par 3) 1).
Proof.
  repeat (split; [reflexivity|]).
  exists [[mk_line true 2 1; mk_line true 2 2]; [fresh_line; fresh_line]],
         (mk_par 1 1 2 0 0 1 2 0).
  split; [|by repeat split].
  exists 2, (replicate 2 (replicate 2 fresh_line)). by repeat split.
Qed.

(** ** Filling an empty set with distinct tags *)

Lemma filled_from_length (n : Z) (tags : list Z) :
  length (filled_from n tags) = length tags.
Proof. revert n. induction tags as [|t tags IH]; intros n; simpl; [done|by rewrite IH]. Qed.

Lemma filled_from_lookup (n : Z) (tags : list Z) (j : nat) :
  filled_from n tags !! j
  = (fun t => mk_line true (n + Z.of_nat j + 1) t) <$> tags !! j.
Proof.
  revert n j. induction tags as [|t tags IH]; intros n j; [done|].
  destruct j as [|j]; simpl.
  - do 2 f_equal. lia.
  - rewrite IH. destruct (tags !! j); simpl; [|done]. do 2 f_equal. lia.
Qed.

Lemma filled_from_app (n : Z) (l1 l2 : list Z) :
  filled_from n (l1 ++ l2)
  = filled_from n l1 ++ filled_from (n + Z.of_nat (length l1)) l2.
Proof.
  revert n. induction l1 as [|t l1 IH]; intros n; simpl.
  - by rewrite Z.add_0_r.
  - rewrite IH. do 3 f_equal. lia.
Qed.

Lemma partly_filled_lookup (tags : list Z) (m j : nat) (l : set_line) :
  partly_filled tags m !! j = Some l ->
  (exists t, tags !! j = Some t /\ l = mk_line true (Z.of_nat j + 1) t) \/
  ((length tags <= j < length tags + m)%nat /\ l = fresh_line).
Proof.
  unfold partly_filled. intros [Hl|[Hj Hl]]%lookup_app_Some.
  - left. rewrite filled_from_lookup in Hl.
    destruct (tags !! j) as [t|]; [|done]. injection Hl as <-. by exists t.
  - right. rewrite filled_from_length in Hj, Hl.
    apply lookup_replicate in Hl as [-> Hlt]. split; [lia|done].
Qed.

Lemma partly_filled_miss (tags : list Z) (m : nat) (t : Z) :
  t ∉ tags ->
  forall j l, partly_filled tags m !! j = Some l -> ~ holds_tag t l.
Proof.
  intros Hnot j l [(t' & Ht' & ->)|[_ ->]]%partly_filled_lookup [Hv Ht]; simpl in *.
  - subst t'. by apply Hnot, (list_elem_of_lookup_2 _ j).
  - done.
Qed.

Lemma partly_filled_first_invalid (tags : list Z) (m : nat) :
  first_invalid_at (partly_filled tags (S m)) (length tags).
Proof.
  split.
  - exists fresh_line. split; [|done]. unfold partly_filled. simpl.
    apply list_lookup_middle. by rewrite filled_from_length.
  - intros j l Hj [(t' & _ & ->)|[Hge _]]%partly_filled_lookup; [done|lia].
Qed.

Lemma partly_filled_max (tags : list Z) (m : nat) :
  (1 <= length tags + m)%nat ->
  max_count_of (partly_filled tags m) (Z.of_nat (length tags)).
Proof.
  intros Hne. split.
  - destruct (decide (length tags = 0%nat)) as [H0|Hpos].
    + exists 0%nat, fresh_line. destruct tags; [|done].
      destruct m; [simpl in Hne; lia|done].
    + destruct (lookup_lt_is_Some_2 tags (length tags - 1) ltac:(lia)) as [t Ht].
      exists (length tags - 1)%nat, (mk_line true (Z.of_nat (length tags)) t).
      split; [|done]. unfold partly_filled.
      rewrite lookup_app_l by (rewrite filled_from_length; lia).
      rewrite filled_from_lookup, Ht. simpl. do 2 f_equal. lia.
  - intros j l Hl.
    destruct (partly_filled_lookup _ _ _ _ Hl) as [(t' & Ht' & ->)|[_ ->]]; simpl.
    + apply lookup_lt_Some in Ht'. lia.
    + lia.
Qed.

Lemma filled_first_min (t : Z) (tags : list Z) :
  first_min_at (partly_filled (t :: tags) 0) 0 1.
Proof.
  split; [by exists (mk_line true 1 t)|]. split.
  - intros j l [(t' & _ & ->)|[Hr ->]]%partly_filled_lookup; simpl in *; lia.
  - intros j l Hj. lia.
Qed.

Lemma filled_all_valid (tags : list Z) :
  forall j l, partly_filled tags 0 !! j = Some l -> valid l = true.
Proof.
  intros j l [(t' & _ & ->)|[Hge ->]]%partly_filled_lookup; [done|lia].
Qed.

Lemma partly_filled_fill (tags : list Z) (m : nat) (t : Z) :
  <[length tags := mk_line true (Z.of_nat (length tags) + 1) t]>
    (partly_filled tags (S m))
  = partly_filled (tags ++ [t]) m.
Proof.
  unfold partly_filled.
  rewrite insert_app_r_alt by (rewrite filled_from_length; lia).
  rewrite filled_from_length, Nat.sub_diag, filled_from_app. simpl.
  by rewrite <- app_assoc.
Qed.

(** Accesses to distinct tags that are not yet resident fill the free lines
    of a set from the lowest index up: only [misses] grows, and nothing is
    evicted. *)
Lemma fill_run (addrs tags : list Z) (par : cache_param_t) (si : Z) :
  Forall2 (fun a t => address_split par a = Some (si, t)) addrs tags ->
  forall (filled : list Z) (c : cache) (m : Z),
    c !! Z.to_nat si = Some (partly_filled filled (length tags)) ->
    (length filled + length tags)%nat = Z.to_nat (par_E par) ->
    NoDup (filled ++ tags) ->
    0 <= m -> m + Z.of_nat (length tags) <= INT_MAX ->
    Z.of_nat (length filled + length tags) <= INT_MAX ->
    run_accesses c (set_misses par m) addrs
    = Some (<[Z.to_nat si := partly_filled (filled ++ tags) 0]> c,
            set_misses par (m + Z.of_nat (length tags))).
Proof.
  induction 1 as [|a t addrs tags Hsplit _ IH];
    intros filled c m Hset Hlen Hnd Hm Hmax Hcnt.
  - simpl. rewrite app_nil_r, Z.add_0_r. by rewrite list_insert_id.
  - simpl length in *. simpl run_accesses.
    assert (Hnot : t ∉ filled).
    { apply NoDup_app in Hnd as (_ & Hdisj & _). intros Hin.
      apply (Hdisj _ Hin). by left. }
    unfold INT_MAX in *.
    rewrite (simulate_cache_fill c (set_misses par m) a si t
               (partly_filled filled (S (length tags))) Hsplit Hset
               ltac:(unfold partly_filled;
                     rewrite length_app, filled_from_length, length_replicate;
                     exact Hlen)
               (partly_filled_miss _ _ _ Hnot)
               (length filled) (Z.of_nat (length filled)) ltac:(simpl; lia)
               (partly_filled_first_invalid _ _)
               (partly_filled_max filled (S (length tags)) ltac:(lia))).
    rewrite !int_add_small by int_range.
    rewrite partly_filled_fill.
    change (set_misses (set_misses par m) (par_misses (set_misses par m) + 1))
      with (set_misses par (m + 1)).
    rewrite (IH (filled ++ [t])).
    + rewrite list_insert_insert_eq, <- app_assoc. simpl.
      do 3 f_equal. lia.
    + apply list_lookup_insert_eq. by apply lookup_lt_Some in Hset.
    + rewrite length_app. simpl. lia.
    + by rewrite <- app_assoc.
    + lia.
    + lia.
    + rewrite length_app. simpl. lia.
Qed.

(** With every tag accessed once, the part of C6 that holds: [E] accesses
    to pairwise distinct tags of one empty set fill it in order -- [E] more
    misses, no eviction -- and an access to a further tag of that set then
    replaces line 0, which holds the tag accessed first. *)
Lemma fill_then_evict_first (par : cache_param_t) (c : cache) (si : Z)
    (addrs tags : list Z) (a t : Z) :
  1 <= par_E par ->
  c !! Z.to_nat si = Some (replicate (Z.to_nat (par_E par)) fresh_line) ->
  length tags = Z.to_nat (par_E par) ->
  Forall2 (fun a t => address_split par a = Some (si, t)) addrs tags ->
  NoDup tags ->
  address_split par a = Some (si, t) -> t ∉ tags ->
  0 <= par_misses par -> par_misses par + par_E par < INT_MAX ->
  0 <= par_evictions par < INT_MAX ->
  exists c' par',
    run_accesses c par addrs = Some (c', par') /\
    par' = set_misses par (par_misses par + par_E par) /\
    c' !! Z.to_nat si = Some (filled_from 0 tags) /\
    simulate_cache c' par' a
    = Some (<[Z.to_nat si :=
                <[0%nat := mk_line true (par_E par + 1) t]> (filled_from 0 tags)]> c',
            set_evictions (set_misses par' (par_misses par' + 1))
                          (par_evictions par + 1)).
Proof.
  intros HE Hset Hlen Hsplits Hnd Hsplit Hnot Hm Hmax Hev.
  assert (HlenZ : Z.of_nat (length tags) = par_E par) by lia.
  unfold INT_MAX in *.
  pose proof (fill_run addrs tags par si Hsplits [] c (par_misses par)) as Hrun.
  assert (Hpar : set_misses par (par_misses par) = par) by by destruct par.
  rewrite Hpar in Hrun. simpl in Hrun.
  specialize (Hrun ltac:(by rewrite Hlen) Hlen Hnd Hm
                   ltac:(unfold INT_MAX; lia) ltac:(unfold INT_MAX; lia)).
  assert (Hfull : partly_filled tags 0 = filled_from 0 tags)
    by (unfold partly_filled; simpl; apply app_nil_r).
  rewrite Hfull, HlenZ in Hrun.
  eexists _, _. split; [exact Hrun|]. split; [done|].
  assert (Hset' : <[Z.to_nat si := filled_from 0 tags]> c !! Z.to_nat si
                  = Some (filled_from 0 tags)).
  { apply list_lookup_insert_eq. by apply lookup_lt_Some in Hset. }
  split; [done|].
  destruct tags as [|t0 tags]; [simpl in Hlen; lia|].
  rewrite <- Hfull in *.
  rewrite (simulate_cache_evict _ (set_misses par (par_misses par + par_E par))
             a si t (partly_filled (t0 :: tags) 0) Hsplit Hset'
             ltac:(rewrite Hfull, filled_from_length; exact Hlen)
             (partly_filled_miss _ _ _ Hnot)
             0%nat 1 (Z.of_nat (length (t0 :: tags))) HE
             (filled_all_valid _) (filled_first_min _ _)
             (partly_filled_max (t0 :: tags) 0 ltac:(simpl; lia))).
  rewrite HlenZ.
  by rewrite !int_add_small by int_range.
Qed.

(** * Further properties of the code *)

(** ** The helper functions on their own *)

(** X1: [get_LRU] on a set of [E >= 1] lines returns an index inside the
    set together with the least and the greatest recency of the set; the
    index is the lowest one whose line has the least recency. *)
Theorem X1_get_LRU_first_minimum (lines : cache_set) (par : cache_param_t) :
  length lines = Z.to_nat (par_E par) -> 1 <= par_E par ->
  exists k mn mx,
    get_LRU lines par = Some (k, mn, mx) /\
    (k < length lines)%nat /\
    first_min_at lines k mn /\ max_count_of lines mx /\ mn <= mx.
Proof.
  intros Hlen HE.
  destruct (get_LRU_spec lines par Hlen HE) as (k & mn & mx & Hrun & Hmin & Hmax).
  exists k, mn, mx. split; [done|].
  destruct Hmin as [(l & Hl & Hmn) [Hle Hlt]].
  split; [by apply lookup_lt_Some in Hl|].
  split; [by split; eauto|]. split; [done|].
  destruct Hmax as [(j & lj & Hj & <-) _]. by apply (Hle j).
Qed.

Lemma X1_get_LRU_witness :
  exists k mn mx,
    get_LRU [mk_line true 5 7; mk_line true 2 8; mk_line true 2 9]
            (mk_par 1 1 3 0 0 0 0 0) = Some (k, mn, mx) /\
    (k < 3)%nat /\
    first_min_at [mk_line true 5 7; mk_line true 2 8; mk_line true 2 9] k mn /\
    max_count_of [mk_line true 5 7; mk_line true 2 8; mk_line true 2 9] mx /\
    mn <= mx.
Proof.
  apply (X1_get_LRU_first_minimum
           [mk_line true 5 7; mk_line true 2 8; mk_line true 2 9]
           (mk_par 1 1 3 0 0 0 0 0)); [reflexivity | simpl; lia].
Defined.

Lemma get_empty_line_loop_full (n i : nat) (lines : cache_set) :
  length lines = (i + n)%nat ->
  (forall j l, (i <= j)%nat -> lines !! j = Some l -> valid l = true) ->
  get_empty_line_loop n i lines = Some 0%nat.
Proof.
  revert i. induction n as [|n IH]; intros i Hlen Hfull; [done|].
  destruct (lookup_lt_is_Some_2 lines i ltac:(lia)) as [line Hline].
  simpl. rewrite Hline. simpl. rewrite (Hfull i line) by done.
  apply IH; [lia|]. intros j l Hj. apply Hfull. lia.
Qed.

(** X2: [get_empty_line] on a set of [E] lines returns the lowest index of
    an invalid line, and 0 when every line is valid -- the same answer as
    when line 0 is the free one. *)
Theorem X2_get_empty_line_lowest_or_zero (lines : cache_set) (par : cache_param_t) :
  length lines = Z.to_nat (par_E par) ->
  exists k,
    get_empty_line lines par = Some k /\
    (first_invalid_at lines k \/
     (k = 0%nat /\ forall j l, lines !! j = Some l -> valid l = true)).
Proof.
  intros Hlen. unfold get_empty_line. rewrite <- Hlen.
  destruct (set_cases 0 lines) as [(k & line & Hk & Hv & _)|[_ [[k Hk]|Hfull]]].
  - destruct (list_find (fun l => valid l = false) lines) as [[k' l']|] eqn:Hfind.
    + apply list_find_Some in Hfind as (Hk' & Hv' & Hlow).
      exists k'. split; [|left].
      * apply get_empty_line_loop_first; [done|lia|].
        split; [by eauto|]. intros j l Hj Hl.
        specialize (Hlow _ _ Hl Hj). by destruct (valid l).
      * split; [by eauto|]. intros j l Hj Hl.
        specialize (Hlow _ _ Hl Hj). by destruct (valid l).
    + apply list_find_None in Hfind. rewrite Forall_lookup in Hfind.
      assert (Hfull : forall j l, lines !! j = Some l -> valid l = true).
      { intros j l Hl. specialize (Hfind _ _ Hl). by destruct (valid l). }
      exists 0%nat. split; [|by right].
      apply get_empty_line_loop_full; [done|]. intros j l _. apply Hfull.
  - exists k. split; [|by left]. apply get_empty_line_loop_first; [done|lia|done].
  - exists 0%nat. split; [|by right].
    apply get_empty_line_loop_full; [done|]. intros j l _. apply Hfull.
Qed.

Lemma X2_get_empty_line_witness :
  exists k,
    get_empty_line demo_set demo_par = Some k /\
    (first_invalid_at demo_set k \/
     (k = 0%nat /\ forall j l, demo_set !! j = Some l -> valid l = true)).
Proof. apply (X2_get_empty_line_lowest_or_zero demo_set demo_par). reflexivity. Defined.

Lemma wrap_int_add_wrap (x y : Z) : wrap_int (wrap_int x + y) = wrap_int (x + y).
Proof.
  unfold wrap_int. f_equal.
  replace ((x + 2 ^ 31) mod 2 ^ 32 - 2 ^ 31 + y + 2 ^ 31)
    with ((x + 2 ^ 31) mod 2 ^ 32 + y) by lia.
  rewrite Zplus_mod_idemp_l. f_equal. lia.
Qed.

Lemma iter_incr_wrap (k : nat) (h : Z) :
  INT_MIN <= h <= INT_MAX ->
  Nat.iter k (fun x => int_add x 1) h = wrap_int (h + Z.of_nat k).
Proof.
  intros Hh. induction k as [|k IH].
  - simpl. rewrite Z.add_0_r. symmetry. by apply wrap_int_small.
  - simpl Nat.iter. rewrite IH. unfold int_add. rewrite wrap_int_add_wrap.
    f_equal. lia.
Qed.

(** X4: the scan of [simulate_cache] over a whole set adds one to the
    recency of every valid line that holds the input tag and to no other
    field of any line, adds to [hits] the number of such lines (on 32
    bits), and leaves [cache_full] set exactly when every line is valid. *)
Theorem X4_hit_scan_bumps_every_holder (t : Z) (lines : cache_set) (hits : Z) :
  INT_MIN <= hits <= INT_MAX ->
  hit_scan (length lines) 0 t lines hits true
  = Some (bump t <$> lines,
          wrap_int (hits + Z.of_nat (count_matches t lines)),
          forallb valid lines) /\
  (forall k l, lines !! k = Some l ->
     valid (bump t l) = valid l /\ tag (bump t l) = tag l /\
     (holds_tag t l -> access_count (bump t l) = int_add (access_count l) 1) /\
     (~ holds_tag t l -> bump t l = l)).
Proof.
  intros Hh. split.
  - by rewrite hit_scan_closed, iter_incr_wrap.
  - intros k l _. unfold bump.
    destruct (matches t l) eqn:Hm.
    + apply matches_true in Hm.
      repeat split; try done; try (intros Hn; contradiction).
    + apply matches_false in Hm.
      repeat split; try done; try (intros Hn; contradiction).
Qed.

Lemma X4_hit_scan_witness :
  hit_scan (length demo_set) 0 2 demo_set 0 true
  = Some (bump 2 <$> demo_set,
          wrap_int (0 + Z.of_nat (count_matches 2 demo_set)),
          forallb valid demo_set) /\
  (forall k l, demo_set !! k = Some l ->
     valid (bump 2 l) = valid l /\ tag (bump 2 l) = tag l /\
     (holds_tag 2 l -> access_count (bump 2 l) = int_add (access_count l) 1) /\
     (~ holds_tag 2 l -> bump 2 l = l)).
Proof. apply (X4_hit_scan_bumps_every_holder 2 demo_set 0). int_range. Defined.

(** ** Addresses *)

Lemma compose_fields (s b t si off : Z) :
  1 <= s -> 1 <= b -> s + b <= 63 ->
  0 <= t < 2 ^ (64 - s - b) -> 0 <= si < 2 ^ s -> 0 <= off < 2 ^ b ->
  0 <= t * 2 ^ (s + b) + si * 2 ^ b + off < 2 ^ 64 /\
  ((t * 2 ^ (s + b) + si * 2 ^ b + off) / 2 ^ b) mod 2 ^ s = si /\
  (t * 2 ^ (s + b) + si * 2 ^ b + off) / 2 ^ (s + b) = t.
Proof.
  intros Hs Hb Hsb Ht Hsi Hoff.
  assert (Hpb : 0 < 2 ^ b) by (apply Z.pow_pos_nonneg; lia).
  assert (Hps : 0 < 2 ^ s) by (apply Z.pow_pos_nonneg; lia).
  assert (Hpsb : 2 ^ (s + b) = 2 ^ s * 2 ^ b) by (apply Z.pow_add_r; lia).
  assert (H64 : 2 ^ 64 = 2 ^ (64 - s - b) * (2 ^ s * 2 ^ b)).
  { rewrite <- Hpsb, <- Z.pow_add_r by lia. f_equal. lia. }
  split; [rewrite H64, Hpsb; nia|].
  assert (Hdiv : (t * 2 ^ (s + b) + si * 2 ^ b + off) / 2 ^ b = t * 2 ^ s + si).
  { symmetry. apply (Z.div_unique _ _ _ off); [lia|]. rewrite Hpsb. lia. }
  split.
  - rewrite Hdiv. symmetry. apply (Z.mod_unique _ _ t); [lia|]. lia.
  - rewrite Hpsb at 2. rewrite (Z.mul_comm (2 ^ s)), <- Z.div_div, Hdiv by lia.
    symmetry. apply (Z.div_unique _ _ _ si); [lia|]. lia.
Qed.

(** X5: splitting is the inverse of composing: the 64-bit address built
    from a tag, a set index and an offset that fit their fields is split
    back into that set index and that tag. *)
Theorem X5_address_split_of_fields (par : cache_param_t) (t si off : Z) :
  1 <= par_s par -> 1 <= par_b par -> par_s par + par_b par <= 63 ->
  0 <= t < 2 ^ (64 - par_s par - par_b par) ->
  0 <= si < 2 ^ par_s par -> 0 <= off < 2 ^ par_b par ->
  0 <= t * 2 ^ (par_s par + par_b par) + si * 2 ^ par_b par + off < 2 ^ 64 /\
  address_split par (t * 2 ^ (par_s par + par_b par) + si * 2 ^ par_b par + off)
  = Some (si, t).
Proof.
  intros Hs Hb Hsb Ht Hsi Hoff.
  destruct (compose_fields _ _ _ _ _ Hs Hb Hsb Ht Hsi Hoff) as (Hr & Hsi' & Ht').
  split; [done|].
  by rewrite address_split_defined, Hsi', Ht' by done.
Qed.

Lemma X5_address_split_witness :
  0 <= 11 * 2 ^ (1 + 1) + 0 * 2 ^ 1 + 1 < 2 ^ 64 /\
  address_split demo_par (11 * 2 ^ (1 + 1) + 0 * 2 ^ 1 + 1) = Some (0, 11).
Proof. apply (X5_address_split_of_fields demo_par 11 0 1); simpl; lia. Defined.

Lemma address_split_block (par : cache_param_t) (a a' : Z) :
  1 <= par_s par -> 1 <= par_b par -> par_s par + par_b par <= 63 ->
  a / 2 ^ par_b par = a' / 2 ^ par_b par ->
  address_split par a = address_split par a'.
Proof.
  intros Hs Hb Hsb Hblock.
  assert (Hpb : 0 < 2 ^ par_b par) by (apply Z.pow_pos_nonneg; lia).
  assert (Hps : 0 < 2 ^ par_s par) by (apply Z.pow_pos_nonneg; lia).
  rewrite !address_split_defined by done.
  rewrite (Z.pow_add_r 2 (par_s par)), (Z.mul_comm (2 ^ par_s par)) by lia.
  rewrite <- !Z.div_div by lia. by rewrite Hblock.
Qed.

Lemma simulate_cache_block (c : cache) (par : cache_param_t) (a a' : Z) :
  1 <= par_s par -> 1 <= par_b par -> par_s par + par_b par <= 63 ->
  a / 2 ^ par_b par = a' / 2 ^ par_b par ->
  simulate_cache c par a = simulate_cache c par a'.
Proof.
  intros Hs Hb Hsb Hblock. unfold simulate_cache.
  by rewrite (address_split_block par a a').
Qed.

(** X6: the block offset plays no part: two addresses of the same block
    (equal above the low [b] bits) give the same result on every cache. *)
Theorem X6_same_block_same_access (c : cache) (par : cache_param_t) (a a' : Z) :
  1 <= par_s par -> 1 <= par_b par -> par_s par + par_b par <= 63 ->
  a / 2 ^ par_b par = a' / 2 ^ par_b par ->
  simulate_cache c par a = simulate_cache c par a'.
Proof. apply simulate_cache_block. Qed.

Lemma X6_same_block_witness :
  simulate_cache demo_cache demo_par 8 = simulate_cache demo_cache demo_par 9.
Proof.
  apply (X6_same_block_same_access demo_cache demo_par 8 9);
    [simpl; lia | simpl; lia | simpl; lia | reflexivity].
Defined.

(** ** What a single access does and does not do *)

Lemma engine_step_kind (par par' : cache_param_t) (t : Z) (set set' : cache_set) :
  engine_step par t set set' par' ->
  exists k,
    par' = count_access k par /\
    (k = kind_hit <-> exists j l, set !! j = Some l /\ holds_tag t l) /\
    (k = kind_miss_eviction <->
       (forall j l, set !! j = Some l -> ~ holds_tag t l) /\
       (forall j l, set !! j = Some l -> valid l = true)) /\
    forall par0, engine_step par0 t set set' (count_access k par0).
Proof.
  intros [j line Hj Hh|j mx Hmiss Hj Hmx|j mn mx Hmiss Hfull Hj Hmx].
  - exists kind_hit. split; [done|]. split; [by split; eauto|]. split.
    + split; [done|]. intros [Hmiss _]. destruct (Hmiss _ _ Hj Hh).
    + intros par0. by apply engine_hit.
  - exists kind_miss. split; [done|]. split.
    + split; [done|]. intros (j' & l & Hl & Hh). destruct (Hmiss _ _ Hl Hh).
    + split.
      * split; [done|]. intros [_ Hfull].
        destruct Hj as [(l & Hl & Hv) _]. rewrite (Hfull _ _ Hl) in Hv. done.
      * intros par0. by apply engine_fill.
  - exists kind_miss_eviction. split; [done|]. split.
    + split; [done|]. intros (j' & l & Hl & Hh). destruct (Hmiss _ _ Hl Hh).
    + split; [by split|]. intros par0. by apply (engine_evict _ _ _ j mn mx).
Qed.

Lemma engine_step_one_line (par par' : cache_param_t) (t : Z) (set set' : cache_set) :
  engine_step par t set set' par' ->
  exists k line',
    (k < length set)%nat /\ holds_tag t line' /\ set' = <[k := line']> set.
Proof.
  intros [k line Hk [Hv Ht]|k mx _ [(l & Hl & _) _] _|k mn mx _ _ [(l & Hl & _) _] _];
    eexists k, _; (split; [by eapply lookup_lt_Some|]); (split; [|reflexivity]);
    by split.
Qed.

(** X7: an access rewrites exactly one line, in the set that the address
    selects; the line it writes is valid and holds the tag of the address.
    Every other line of the cache is as before. *)
Theorem X7_access_rewrites_one_line (par par' : cache_param_t) (c c' : cache) (a : Z) :
  valid_config par -> cache_ok par c ->
  simulate_cache c par a = Some (c', par') ->
  exists setIndex input_tag query_set k line',
    address_split par a = Some (setIndex, input_tag) /\
    c !! Z.to_nat setIndex = Some query_set /\
    (k < length query_set)%nat /\
    holds_tag input_tag line' /\
    c' = <[Z.to_nat setIndex := <[k := line']> query_set]> c.
Proof.
  intros Hcfg Hok Hrun.
  destruct (simulate_cache_engine par c a Hcfg Hok)
    as (si & t & set & lines' & par1 & Hsplit & Hset & Hstep & Hrun').
  rewrite Hrun in Hrun'. injection Hrun' as -> ->.
  destruct (engine_step_one_line _ _ _ _ _ Hstep) as (k & line' & Hk & Hh & ->).
  by exists si, t, set, k, line'.
Qed.

Lemma X7_one_line_witness :
  exists setIndex input_tag query_set k line',
    address_split demo_par 12 = Some (setIndex, input_tag) /\
    demo_cache !! Z.to_nat setIndex = Some query_set /\
    (k < length query_set)%nat /\
    holds_tag input_tag line' /\
    <[0%nat := [mk_line true 3 3; mk_line true 2 2]]> demo_cache
    = <[Z.to_nat setIndex := <[k := line']> query_set]> demo_cache.
Proof.
  apply (X7_access_rewrites_one_line demo_par
           (set_evictions (set_misses demo_par 3) 1) demo_cache _ 12).
  - exact (proj1 (reachable_ok 1 2 1 [4; 8] demo_cache demo_par
                    demo_valid_config demo_reachable)).
  - exact (proj1 (proj2 (reachable_ok 1 2 1 [4; 8] demo_cache demo_par
                           demo_valid_config demo_reachable))).
  - reflexivity.
Defined.

(** X8: an access changes neither the geometry of the cache nor the
    configuration fields of the parameter record, and it never turns a
    valid line into an invalid one. *)
Theorem X8_access_keeps_geometry_and_validity (par par' : cache_param_t)
    (c c' : cache) (a : Z) :
  valid_config par -> cache_ok par c ->
  simulate_cache c par a = Some (c', par') ->
  length c' = length c /\
  (forall i set', c' !! i = Some set' -> length set' = Z.to_nat (par_E par)) /\
  (par_s par' = par_s par /\ par_b par' = par_b par /\ par_E par' = par_E par /\
   par_S par' = par_S par /\ par_B par' = par_B par) /\
  (forall i j set l,
     c !! i = Some set -> set !! j = Some l -> valid l = true ->
     exists set' l', c' !! i = Some set' /\ set' !! j = Some l' /\ valid l' = true).
Proof.
  intros Hcfg Hok Hrun.
  destruct (simulate_cache_engine par c a Hcfg Hok)
    as (si & t & set & lines' & par1 & Hsplit & Hset & Hstep & Hrun').
  rewrite Hrun in Hrun'. injection Hrun' as -> ->.
  destruct (step_cache_ok par c a Hcfg Hok) as (c2 & par2 & Hrun2 & Hsame & Hok2).
  rewrite Hrun in Hrun2. injection Hrun2 as <- <-.
  destruct Hok2 as (_ & Hshape & _). destruct Hsame as (Hs & Hb & HE).
  split; [apply length_insert|]. split.
  { intros i set' Hi. rewrite <- HE. apply (Forall_lookup_1 _ _ _ _ Hshape Hi). }
  split.
  { destruct (engine_step_kind _ _ _ _ _ Hstep) as (k & -> & _). by destruct k. }
  intros i j set0 l Hi Hj Hv.
  destruct (engine_step_one_line _ _ _ _ _ Hstep) as (k & line' & Hk & [Hv' _] & ->).
  destruct (decide (i = Z.to_nat si)) as [->|Hne].
  - rewrite Hset in Hi. injection Hi as <-.
    rewrite list_lookup_insert_eq by (by eapply lookup_lt_Some).
    destruct (decide (j = k)) as [->|Hjk].
    + exists (<[k := line']> set), line'.
      split; [done|]. split; [by apply list_lookup_insert_eq|done].
    + exists (<[k := line']> set), l.
      split; [done|]. split; [by rewrite list_lookup_insert_ne|done].
  - exists set0, l. split; [by rewrite list_lookup_insert_ne|done].
Qed.

Lemma demo_cache_ok : valid_config demo_par /\ cache_ok demo_par demo_cache.
Proof.
  pose proof (reachable_ok 1 2 1 [4; 8] demo_cache demo_par
                demo_valid_config demo_reachable) as (H1 & H2 & _).
  by split.
Defined.

Lemma X8_geometry_witness :
  length (<[0%nat := [mk_line true 3 3; mk_line true 2 2]]> demo_cache)
  = length demo_cache /\
  (forall i set',
     <[0%nat := [mk_line true 3 3; mk_line true 2 2]]> demo_cache !! i = Some set' ->
     length set' = Z.to_nat (par_E demo_par)) /\
  (par_s (set_evictions (set_misses demo_par 3) 1) = par_s demo_par /\
   par_b (set_evictions (set_misses demo_par 3) 1) = par_b demo_par /\
   par_E (set_evictions (set_misses demo_par 3) 1) = par_E demo_par /\
   par_S (set_evictions (set_misses demo_par 3) 1) = par_S demo_par /\
   par_B (set_evictions (set_misses demo_par 3) 1) = par_B demo_par) /\
  (forall i j set l,
     demo_cache !! i = Some set -> set !! j = Some l -> valid l = true ->
     exists set' l',
       <[0%nat := [mk_line true 3 3; mk_line true 2 2]]> demo_cache !! i = Some set' /\
       set' !! j = Some l' /\ valid l' = true).
Proof.
  apply (X8_access_keeps_geometry_and_validity demo_par _ demo_cache _ 12).
  - exact (proj1 demo_cache_ok).
  - exact (proj2 demo_cache_ok).
  - reflexivity.
Defined.

(** The engine is all the code can do: a step of the engine on the selected
    set is the result of the access. *)
Lemma engine_step_run (par par' : cache_param_t) (c : cache) (a si t : Z)
    (set set' : cache_set) :
  1 <= par_E par ->
  address_split par a = Some (si, t) ->
  c !! Z.to_nat si = Some set ->
  length set = Z.to_nat (par_E par) -> no_duplicate_tags set ->
  engine_step par t set set' par' ->
  simulate_cache c par a = Some (<[Z.to_nat si := set']> c, par').
Proof.
  intros HE Hsplit Hset Hlen Hnd
    [k line Hk Hh|k mx Hmiss Hk Hmx|k mn mx Hmiss Hfull Hk Hmx].
  - by eapply simulate_cache_hit.
  - by eapply simulate_cache_fill.
  - by eapply simulate_cache_evict.
Qed.

(** X12: which counters an access moves is decided by the selected set
    alone: it is a hit exactly when some valid line holds the tag, and a
    miss with an eviction exactly when no valid line holds the tag and every
    line is valid; otherwise it is a miss without eviction.  Each counter
    concerned is incremented once. *)
Theorem X12_access_kind_decided_by_set (par par' : cache_param_t) (c c' : cache)
    (a setIndex input_tag : Z) (query_set : cache_set) :
  valid_config par -> cache_ok par c ->
  address_split par a = Some (setIndex, input_tag) ->
  c !! Z.to_nat setIndex = Some query_set ->
  simulate_cache c par a = Some (c', par') ->
  exists k,
    par' = count_access k par /\
    (k = kind_hit <-> exists j l, query_set !! j = Some l /\ holds_tag input_tag l) /\
    (k = kind_miss_eviction <->
       (forall j l, query_set !! j = Some l -> ~ holds_tag input_tag l) /\
       (forall j l, query_set !! j = Some l -> valid l = true)).
Proof.
  intros Hcfg Hok Hsplit Hset Hrun.
  destruct (simulate_cache_engine par c a Hcfg Hok)
    as (si & t & set & lines' & par1 & Hsplit' & Hset' & Hstep & Hrun').
  rewrite Hsplit in Hsplit'. injection Hsplit' as <- <-.
  rewrite Hset in Hset'. injection Hset' as <-.
  rewrite Hrun in Hrun'. injection Hrun' as -> ->.
  destruct (engine_step_kind _ _ _ _ _ Hstep) as (k & Hpar & Hhit & Hev & _).
  by exists k.
Qed.

Lemma X12_access_kind_witness :
  exists k,
    set_evictions (set_misses demo_par 3) 1 = count_access k demo_par /\
    (k = kind_hit <-> exists j l, demo_set !! j = Some l /\ holds_tag 3 l) /\
    (k = kind_miss_eviction <->
       (forall j l, demo_set !! j = Some l -> ~ holds_tag 3 l) /\
       (forall j l, demo_set !! j = Some l -> valid l = true)).
Proof.
  apply (X12_access_kind_decided_by_set demo_par _ demo_cache
           (<[0%nat := [mk_line true 3 3; mk_line true 2 2]]> demo_cache)
           12 0 3 demo_set).
  - exact (proj1 demo_cache_ok).
  - exact (proj2 demo_cache_ok).
  - reflexivity.
  - reflexivity.
  - reflexivity.
Defined.

(** X10: after any access, an access to any address of the same block is a
    hit: it only increments [hits]. *)
Theorem X10_repeated_access_hits (par par1 : cache_param_t) (c c1 : cache) (a a' : Z) :
  valid_config par -> cache_ok par c ->
  simulate_cache c par a = Some (c1, par1) ->
  a' / 2 ^ par_b par = a / 2 ^ par_b par ->
  exists c2,
    simulate_cache c1 par1 a' = Some (c2, count_access kind_hit par1).
Proof.
  intros Hcfg Hok Hrun Hblock.
  destruct (step_cache_ok par c a Hcfg Hok) as (c1' & par1' & Hrun1 & Hsame & _).
  rewrite Hrun in Hrun1. injection Hrun1 as <- <-.
  pose proof (valid_config_same _ _ Hsame Hcfg) as [Hs Hb Hsb _].
  destruct Hsame as (_ & Hb' & _).
  rewrite (simulate_cache_block c1 par1 a' a);
    [|lia|lia|lia|by rewrite Hb'].
  by apply (access_twice par par1 c c1 a).
Qed.

Lemma X10_repeated_access_witness :
  exists c2,
    simulate_cache (<[0%nat := [mk_line true 3 3; mk_line true 2 2]]> demo_cache)
                   (set_evictions (set_misses demo_par 3) 1) 13
    = Some (c2, count_access kind_hit (set_evictions (set_misses demo_par 3) 1)).
Proof.
  apply (X10_repeated_access_hits demo_par _ demo_cache _ 12 13).
  - exact (proj1 demo_cache_ok).
  - exact (proj2 demo_cache_ok).
  - reflexivity.
  - reflexivity.
Defined.

(** ** From the freshly built cache *)

Lemma build_cache_fresh (s E block_size : Z) (c0 : cache) :
  0 <= s ->
  build_cache (num_sets_of s) E block_size = Some c0 ->
  c0 = replicate (Z.to_nat (2 ^ s)) (replicate (Z.to_nat E) fresh_line).
Proof.
  intros Hs. unfold build_cache, num_sets_of.
  destruct (Z.ltb_spec s 0) as [?|_]; [lia|].
  destruct (decide (2 ^ s <= INT_MAX)); [|done]. by intros [= <-].
Qed.

(** X3: the first access to a freshly built cache, whatever the address, is
    a miss without eviction that fills line 0 of the selected set with
    recency 1. *)
Theorem X3_first_access_is_cold_miss (s E b a : Z) :
  valid_config (initial_par s E b) ->
  exists c0 setIndex input_tag,
    build_cache (num_sets_of s) E (2 ^ b) = Some c0 /\
    address_split (initial_par s E b) a = Some (setIndex, input_tag) /\
    simulate_cache c0 (initial_par s E b) a
    = Some (<[Z.to_nat setIndex :=
                <[0%nat := mk_line true 1 input_tag]>
                  (replicate (Z.to_nat E) fresh_line)]> c0,
            set_misses (initial_par s E b) 1).
Proof.
  intros Hcfg.
  destruct (build_cache_ok (initial_par s E b) (2 ^ b) Hcfg) as (c0 & Hbuild & Hok & _).
  destruct (access_target _ c0 a Hcfg Hok) as (set & Hsplit & Hset & Hlen & _).
  simpl in Hbuild, Hlen.
  pose proof (vc_s _ Hcfg) as Hs. pose proof (vc_E _ Hcfg) as HE. simpl in Hs, HE.
  pose proof (build_cache_fresh s E _ c0 ltac:(lia) Hbuild) as Hc0.
  assert (Hfresh : set = replicate (Z.to_nat E) fresh_line).
  { rewrite Hc0 in Hset. by apply lookup_replicate in Hset as [-> _]. }
  subst set.
  eexists c0, _, _. split; [done|]. split; [exact Hsplit|].
  destruct (Z.to_nat E) as [|m] eqn:HEn; [lia|].
  change (replicate (S m) fresh_line) with (partly_filled [] (S m)) in *.
  rewrite (simulate_cache_fill c0 (initial_par s E b) a _ _ (partly_filled [] (S m))
             Hsplit Hset ltac:(simpl; rewrite HEn; exact Hlen)
             (partly_filled_miss [] (S m) _ ltac:(apply not_elem_of_nil))
             0%nat 0 ltac:(simpl; lia)
             (partly_filled_first_invalid [] m)
             (partly_filled_max [] (S m) ltac:(simpl; lia))).
  reflexivity.
Qed.

Lemma X3_cold_miss_witness :
  exists c0 setIndex input_tag,
    build_cache (num_sets_of 1) 2 (2 ^ 1) = Some c0 /\
    address_split (initial_par 1 2 1) 0x2e = Some (setIndex, input_tag) /\
    simulate_cache c0 (initial_par 1 2 1) 0x2e
    = Some (<[Z.to_nat setIndex :=
                <[0%nat := mk_line true 1 input_tag]>
                  (replicate (Z.to_nat 2) fresh_line)]> c0,
            set_misses (initial_par 1 2 1) 1).
Proof. apply (X3_first_access_is_cold_miss 1 2 1 0x2e). exact demo_valid_config. Defined.

(** ** Direct-mapped conflicts *)

Lemma single_line_min_max (line : set_line) :
  first_min_at [line] 0 (access_count line) /\
  max_count_of [line] (access_count line).
Proof.
  split.
  - split; [by exists line|]. split.
    + intros [|j] l Hl; [|done]. injection Hl as <-. lia.
    + intros j l Hj. lia.
  - split; [by exists 0%nat, line|].
    intros [|j] l Hl; [|done]. injection Hl as <-. lia.
Qed.

Lemma direct_mapped_replace (par : cache_param_t) (c : cache) (a si t : Z)
    (line : set_line) :
  par_E par = 1 ->
  address_split par a = Some (si, t) ->
  c !! Z.to_nat si = Some [line] ->
  valid line = true -> tag line <> t ->
  simulate_cache c par a
  = Some (<[Z.to_nat si := [mk_line true (int_add (access_count line) 1) t]]> c,
          count_access kind_miss_eviction par).
Proof.
  intros HE Hsplit Hset Hv Ht.
  destruct (single_line_min_max line) as [Hmin Hmax].
  rewrite (simulate_cache_evict c par a si t [line] Hsplit Hset
             ltac:(by rewrite HE)
             ltac:(intros [|j] l Hl [_ Ht']; [injection Hl as <-; done|done])
             0%nat (access_count line) (access_count line) ltac:(lia)
             ltac:(intros [|j] l Hl; [by injection Hl as <-|done]) Hmin Hmax).
  reflexivity.
Qed.

(** X11: with one line per set, two addresses of the same set with
    different tags evict each other: once one of them is resident, [n]
    accesses alternating between the two, the other one first, are [n]
    misses with [n] evictions and no hit. *)
Theorem X11_direct_mapped_conflict (n : nat) (par : cache_param_t) (c : cache)
    (a1 a2 si t1 t2 : Z) (line : set_line) :
  par_E par = 1 ->
  address_split par a1 = Some (si, t1) ->
  address_split par a2 = Some (si, t2) ->
  t1 <> t2 ->
  c !! Z.to_nat si = Some [line] -> holds_tag t1 line ->
  0 <= par_misses par -> 0 <= par_evictions par ->
  par_misses par + Z.of_nat n <= INT_MAX ->
  par_evictions par + Z.of_nat n <= INT_MAX ->
  exists c' par',
    run_accesses c par (alternate a2 a1 n) = Some (c', par') /\
    par_hits par' = par_hits par /\
    par_misses par' = par_misses par + Z.of_nat n /\
    par_evictions par' = par_evictions par + Z.of_nat n.
Proof.
  revert par c a1 a2 t1 t2 line.
  induction n as [|n IH];
    intros par c a1 a2 t1 t2 line HE H1 H2 Hne Hset [Hv Ht] Hm He Hmn Hen.
  - exists c, par. simpl. repeat split; lia.
  - simpl alternate. simpl run_accesses.
    rewrite (direct_mapped_replace par c a2 si t2 line HE H2 Hset Hv
               ltac:(congruence)).
    destruct (IH (count_access kind_miss_eviction par)
                 (<[Z.to_nat si := [mk_line true (int_add (access_count line) 1) t2]]> c)
                 a2 a1 t2 t1 (mk_line true (int_add (access_count line) 1) t2))
      as (c' & par' & Hrun & Hh' & Hm' & He'); try done.
    + apply list_lookup_insert_eq. by apply lookup_lt_Some in Hset.
    + simpl. rewrite int_add_small by int_range. lia.
    + simpl. rewrite int_add_small by int_range. lia.
    + simpl. rewrite int_add_small by int_range. lia.
    + simpl. rewrite int_add_small by int_range. lia.
    + exists c', par'. split; [done|].
      simpl in Hh', Hm', He'.
      rewrite !int_add_small in * by int_range. repeat split; lia.
Qed.

Lemma X11_direct_mapped_witness :
  exists c' par',
    run_accesses [[mk_line true 1 4]; [fresh_line]] (mk_par 1 1 1 0 0 0 1 0)
                 (alternate 0x18 0x10 4) = Some (c', par') /\
    par_hits par' = 0 /\
    par_misses par' = 1 + Z.of_nat 4 /\
    par_evictions par' = 0 + Z.of_nat 4.
Proof.
  apply (X11_direct_mapped_conflict 4 (mk_par 1 1 1 0 0 0 1 0)
           [[mk_line true 1 4]; [fresh_line]] 0x10 0x18 0 4 6 (mk_line true 1 4));
    try reflexivity; try (split; reflexivity); int_range.
Defined.

(** ** Resident lines *)

Lemma sum_list_with_insert {A : Type} (f : A -> nat) (l : list A) (i : nat) (x y : A) :
  l !! i = Some x ->
  (sum_list_with f (<[i := y]> l) + f x = sum_list_with f l + f y)%nat.
Proof.
  revert i. induction l as [|z l IH]; intros i Hi; [done|].
  destruct i as [|i]; simpl in *.
  - injection Hi as ->. lia.
  - specialize (IH i Hi). lia.
Qed.

Lemma sum_list_with_replicate {A : Type} (f : A -> nat) (n : nat) (x : A) :
  sum_list_with f (replicate n x) = (n * f x)%nat.
Proof. induction n as [|n IH]; simpl; [done|]. rewrite IH. lia. Qed.

Lemma valid_count_le_length (set : cache_set) : (valid_count set <= length set)%nat.
Proof.
  unfold valid_count. induction set as [|l set IH]; simpl; [done|].
  destruct (valid l); lia.
Qed.

Lemma resident_lines_le (c : cache) (e : nat) :
  Forall (fun set : cache_set => length set = e) c ->
  (resident_lines c <= length c * e)%nat.
Proof.
  unfold resident_lines. induction 1 as [|set c Hset _ IH]; simpl; [done|].
  pose proof (valid_count_le_length set). lia.
Qed.

(** A fill adds one valid line to the set; a hit and an eviction add none. *)
Lemma engine_step_valid_count (par par' : cache_param_t) (t : Z) (set set' : cache_set) :
  engine_step par t set set' par' ->
  exists k,
    par' = count_access k par /\
    valid_count set'
    = (valid_count set + match k with kind_miss => 1 | _ => 0 end)%nat.
Proof.
  unfold valid_count.
  intros [j line Hj _|j mx _ [(l & Hl & Hv) _] _|j mn mx _ Hfull [(l & Hl & _) _] _].
  - exists kind_hit. split; [done|].
    pose proof (sum_list_with_insert
                  (fun l : set_line => if valid l then 1%nat else 0%nat) set j line
                  (set_access_count line (int_add (access_count line) 1)) Hj) as H.
    simpl in H. lia.
  - exists kind_miss. split; [done|].
    pose proof (sum_list_with_insert
                  (fun l : set_line => if valid l then 1%nat else 0%nat) set j l
                  (mk_line true (int_add mx 1) t) Hl) as H.
    simpl in H. rewrite Hv in H. lia.
  - exists kind_miss_eviction. split; [done|].
    pose proof (sum_list_with_insert
                  (fun l : set_line => if valid l then 1%nat else 0%nat) set j l
                  (mk_line true (int_add mx 1) t) Hl) as H.
    simpl in H. rewrite (Hfull _ _ Hl) in H. lia.
Qed.

Lemma step_residents (n : Z) (par par' : cache_param_t) (c c' : cache) (a : Z) :
  valid_config par -> cache_ok par c -> counters_ok n par c -> n < INT_MAX ->
  par_misses par - par_evictions par = Z.of_nat (resident_lines c) ->
  simulate_cache c par a = Some (c', par') ->
  par_misses par' - par_evictions par' = Z.of_nat (resident_lines c').
Proof.
  intros Hcfg Hok (Hh & He & Hsum & _) Hn Hres Hrun.
  destruct (simulate_cache_engine par c a Hcfg Hok)
    as (si & t & set & lines' & par1 & _ & Hset & Hstep & Hrun').
  rewrite Hrun in Hrun'. injection Hrun' as -> ->.
  destruct (engine_step_valid_count _ _ _ _ _ Hstep) as (k & -> & Hcount).
  pose proof (sum_list_with_insert valid_count c (Z.to_nat si) set lines' Hset) as Hins.
  unfold resident_lines in *.
  destruct k; simpl; rewrite ?int_add_small by int_range; lia.
Qed.

Lemma run_residents (addrs : list Z) (n : Z) (par par' : cache_param_t) (c c' : cache) :
  valid_config par -> cache_ok par c -> counters_ok n par c ->
  n + Z.of_nat (length addrs) <= INT_MAX ->
  par_misses par - par_evictions par = Z.of_nat (resident_lines c) ->
  run_accesses c par addrs = Some (c', par') ->
  par_misses par' - par_evictions par' = Z.of_nat (resident_lines c').
Proof.
  revert n par c. induction addrs as [|a addrs IH];
    intros n par c Hcfg Hok Hcnt Hn Hres Hrun.
  - simpl in Hrun. injection Hrun as <- <-. exact Hres.
  - simpl length in Hn. simpl in Hrun.
    destruct (step_cache_ok par c a Hcfg Hok) as (c1 & par1 & Hstep & Hsame & Hok1).
    destruct (step_counters_ok n par c a Hcfg Hok Hcnt ltac:(lia))
      as (c1' & par1' & Hstep' & Hcnt1 & _).
    rewrite Hstep in Hstep'. injection Hstep' as <- <-.
    rewrite Hstep in Hrun.
    apply (IH (n + 1) par1 c1); [by eapply valid_config_same|done|done|lia| |done].
    apply (step_residents n par par1 c c1 a); (done || lia).
Qed.

Lemma reachable_residency (s E b : Z) (addrs : list Z)
    (c : cache) (par : cache_param_t) :
  valid_config (initial_par s E b) ->
  reachable s E b addrs c par ->
  Z.of_nat (length addrs) <= INT_MAX ->
  par_misses par - par_evictions par = Z.of_nat (resident_lines c) /\
  Z.of_nat (resident_lines c) <= 2 ^ s * E.
Proof.
  intros Hcfg Hreach Hn.
  destruct (reachable_ok _ _ _ _ _ _ Hcfg Hreach) as (_ & (Hlen & Hshape & _) & Hsame).
  destruct Hsame as (Hs & _ & HE). simpl in Hs, HE.
  pose proof (vc_s _ Hcfg) as Hs1. pose proof (vc_E _ Hcfg) as HE1. simpl in Hs1, HE1.
  split.
  - destruct Hreach as (bs & c0 & _ & Hbuild & Hrun).
    destruct (build_cache_ok (initial_par s E b) bs Hcfg) as (c0' & Hb & Hok0 & Hzero).
    simpl in Hb. rewrite Hbuild in Hb. injection Hb as <-.
    apply (run_residents addrs 0 (initial_par s E b) par c0 c Hcfg Hok0);
      [|lia| |done].
    + unfold counters_ok. simpl. repeat split; (done || lia).
    + rewrite (build_cache_fresh s E bs c0 ltac:(lia) Hbuild).
      unfold resident_lines. rewrite sum_list_with_replicate.
      unfold valid_count. rewrite sum_list_with_replicate. simpl. lia.
  - pose proof (resident_lines_le c _ Hshape) as Hle.
    rewrite Hlen, Hs, HE in Hle.
    assert (0 < 2 ^ s) by (apply Z.pow_pos_nonneg; lia).
    nia.
Qed.


(** X9: every miss either fills a free line or evicts: in a reachable state
    [misses - evictions] is the number of valid lines in the cache, hence
    at most [2^s * E]. *)
Theorem X9_misses_minus_evictions_is_residency (s E b : Z) (addrs : list Z)
    (c : cache) (par : cache_param_t) :
  valid_config (initial_par s E b) ->
  reachable s E b addrs c par ->
  Z.of_nat (length addrs) <= INT_MAX ->
  par_misses par - par_evictions par = Z.of_nat (resident_lines c) /\
  Z.of_nat (resident_lines c) <= 2 ^ s * E.
Proof. apply reachable_residency. Qed.

Lemma X9_residency_witness :
  par_misses demo_par - par_evictions demo_par = Z.of_nat (resident_lines demo_cache) /\
  Z.of_nat (resident_lines demo_cache) <= 2 ^ 1 * 2.
Proof.
  apply (X9_misses_minus_evictions_is_residency 1 2 1 [4; 8] demo_cache demo_par).
  - exact demo_valid_config.
  - exact demo_reachable.
  - int_range.
Defined.

(** ** The driver *)

Lemma issued_data_loads (trace : list trace_record) :
  issued (data_loads trace) = issued trace.
Proof.
  unfold data_loads. induction (issued trace) as [|a l IH]; [done|].
  rewrite fmap_cons. unfold issued in *. simpl. by rewrite IH.
Qed.

Lemma main_depends_on_issued (s E b : Z) (t1 t2 : list trace_record) :
  issued t1 = issued t2 ->
  main_after_getopt s E b (Some t1) = main_after_getopt s E b (Some t2).
Proof.
  intros Heq. unfold main_after_getopt. simpl.
  destruct ((s =? 0) || (E =? 0) || (b =? 0)); [done|].
  destruct (bit_pow b); [|done].
  destruct (build_cache _ _ _); [|done].
  by rewrite !replay_trace_issued, Heq.
Qed.

(** A last [-t] option decides the trace file, whatever came before. *)
Lemma getopt_loop_last_trace (returns : list getopt_return) (par : cache_param_t)
    (trace_file : option (list trace_record)) (trace : list trace_record) :
  getopt_loop (returns ++ [opt_t trace]) par trace_file
  = match getopt_loop returns par trace_file with
    | options_exit o => options_exit o
    | options_done par' _ => options_done par' (Some trace)
    end.
Proof.
  revert par trace_file.
  induction returns as [|r returns IH]; intros par trace_file; [done|].
  destruct r; simpl; by rewrite ?IH.
Qed.

(** X13: what [main] prints depends on the trace through the sequence of
    its data addresses only: records with a command other than L, S and M
    can be dropped, a store counts as a load, a modify as two loads of its
    address, and the size field is ignored. *)
Theorem X13_main_reads_data_addresses_only (s E b : Z) (trace : list trace_record) :
  main_after_getopt s E b (Some trace)
  = main_after_getopt s E b (Some (data_loads trace)) /\
  (forall returns,
     main (returns ++ [opt_t trace]) = main (returns ++ [opt_t (data_loads trace)])).
Proof.
  assert (Heq : forall s' E' b',
            main_after_getopt s' E' b' (Some trace)
            = main_after_getopt s' E' b' (Some (data_loads trace))).
  { intros s' E' b'. apply main_depends_on_issued. symmetry. apply issued_data_loads. }
  split; [apply Heq|].
  intros returns. unfold main. rewrite !getopt_loop_last_trace.
  destruct (getopt_loop returns zeroed_par None) as [o|par tf]; [done|apply Heq].
Qed.

(** The option loop ends in [printUsage] exactly when [getopt] returns
    ['h'] or a value that is no option letter. *)
Lemma getopt_loop_exit (returns : list getopt_return) (par : cache_param_t)
    (trace_file : option (list trace_record)) :
  (opt_h ∈ returns \/ opt_other ∈ returns ->
   getopt_loop returns par trace_file = options_exit printUsage) /\
  (forall o, getopt_loop returns par trace_file = options_exit o ->
     o = printUsage /\ (opt_h ∈ returns \/ opt_other ∈ returns)).
Proof.
  revert par trace_file.
  induction returns as [|r returns IH]; intros par trace_file.
  - split; [|done]. intros [H|H]; by apply elem_of_nil in H.
  - assert (Hrest : forall par' tf',
              getopt_loop (r :: returns) par trace_file
              = getopt_loop returns par' tf' ->
              r <> opt_h -> r <> opt_other ->
              (opt_h ∈ r :: returns \/ opt_other ∈ r :: returns ->
               getopt_loop (r :: returns) par trace_file = options_exit printUsage) /\
              (forall o, getopt_loop (r :: returns) par trace_file = options_exit o ->
                 o = printUsage /\ (opt_h ∈ r :: returns \/ opt_other ∈ r :: returns))).
    { intros par' tf' -> Hh Ho. destruct (IH par' tf') as [IH1 IH2]. split.
      - intros [H|H]; apply elem_of_cons in H as [H|H]; try congruence;
          apply IH1; auto.
      - intros o Hrun. destruct (IH2 o Hrun) as [-> [H|H]];
          (split; [done|]); [left|right]; by apply elem_of_cons; right. }
    destruct r; try (by eapply Hrest).
    + split; [done|]. intros o [= <-]. split; [done|]. left. by left.
    + split; [done|]. intros o [= <-]. split; [done|]. right. by left.
Qed.

(** X14: every usage exit of [main] has status 0: [-h], a return of
    [getopt] that is no option letter, and a zero [s], [E] or [b] after the
    loop all end in [printUsage], which exits itself.  These are the only
    usage exits. *)
Theorem X14_usage_exits_have_status_zero (returns : list getopt_return) :
  (forall status, main returns = usage_exit status -> status = 0) /\
  (main returns = usage_exit 0 <->
   opt_h ∈ returns \/ opt_other ∈ returns \/
   exists par trace_file,
     getopt_loop returns zeroed_par None = options_done par trace_file /\
     (par_s par = 0 \/ par_E par = 0 \/ par_b par = 0)).
Proof.
  destruct (getopt_loop_exit returns zeroed_par None) as [Hexit Hexit'].
  unfold main.
  destruct (getopt_loop returns zeroed_par None) as [o|par tf] eqn:Hloop.
  - destruct (Hexit' o eq_refl) as [-> Hin]. split.
    + by intros status [= <-].
    + split; [intros _; tauto|done].
  - split.
    + intros status H. by apply main_usage_exit_only in H as [H _].
    + split.
      * intros H. apply main_usage_exit_only in H as [_ H].
        right. right. by exists par, tf.
      * intros [H|[H|(par' & tf' & [= <- <-] & H)]].
        -- by specialize (Hexit (or_introl H)).
        -- by specialize (Hexit (or_intror H)).
        -- by apply main_after_getopt_zero.
Qed.

(** ** Independent sets *)

Lemma count_access_config (k : access_kind) (par : cache_param_t) (a : Z) :
  par_E (count_access k par) = par_E par /\
  address_split (count_access k par) a = address_split par a.
Proof. by destruct k. Qed.

Lemma count_access_comm (k1 k2 : access_kind) (par : cache_param_t) :
  count_access k1 (count_access k2 par) = count_access k2 (count_access k1 par).
Proof. by destruct k1, k2. Qed.

(** Two accesses in a row to different sets, read off the engine steps that
    each of them does on its own set. *)
Lemma access_then_other_set (par : cache_param_t) (c : cache) (a a' i j t t' : Z)
    (set_i set_j la lb : cache_set) (ka kb : access_kind) :
  1 <= par_E par -> cache_ok par c ->
  address_split par a = Some (i, t) -> address_split par a' = Some (j, t') ->
  Z.to_nat i <> Z.to_nat j ->
  c !! Z.to_nat i = Some set_i -> c !! Z.to_nat j = Some set_j ->
  (forall par0, engine_step par0 t set_i la (count_access ka par0)) ->
  (forall par0, engine_step par0 t' set_j lb (count_access kb par0)) ->
  run_accesses c par [a; a']
  = Some (<[Z.to_nat j := lb]> (<[Z.to_nat i := la]> c),
          count_access kb (count_access ka par)).
Proof.
  intros HE (_ & Hshape & Hnd) Ha Ha' Hij Hi Hj Hstep_a Hstep_b.
  simpl.
  rewrite (engine_step_run par (count_access ka par) c a i t set_i la HE Ha Hi
             (Forall_lookup_1 _ _ _ _ Hshape Hi)
             (Forall_lookup_1 _ _ _ _ Hnd Hi) (Hstep_a par)).
  destruct (count_access_config ka par a') as [HE' Hsplit'].
  rewrite (engine_step_run (count_access ka par) (count_access kb (count_access ka par))
             (<[Z.to_nat i := la]> c) a' j t' set_j lb); try done.
  - lia.
  - by rewrite Hsplit'.
  - by rewrite list_lookup_insert_ne.
  - rewrite HE'. apply (Forall_lookup_1 _ _ _ _ Hshape Hj).
  - apply (Forall_lookup_1 _ _ _ _ Hnd Hj).
Qed.

(** X15: accesses to different sets do not interfere: two accesses whose
    addresses select different sets give the same cache and the same
    counters in either order. *)
Theorem X15_accesses_to_different_sets_commute (par : cache_param_t) (c : cache)
    (a a' i j t t' : Z) :
  valid_config par -> cache_ok par c ->
  address_split par a = Some (i, t) -> address_split par a' = Some (j, t') ->
  i <> j ->
  run_accesses c par [a; a'] = run_accesses c par [a'; a] /\
  is_Some (run_accesses c par [a; a']).
Proof.
  intros Hcfg Hok Ha Ha' Hij.
  pose proof (vc_E _ Hcfg) as HE. pose proof (vc_s _ Hcfg) as Hs.
  destruct (simulate_cache_engine par c a Hcfg Hok)
    as (i0 & t0 & set_i & la & pa & Ha0 & Hi & Hstep_a & _).
  rewrite Ha in Ha0. injection Ha0 as <- <-.
  destruct (simulate_cache_engine par c a' Hcfg Hok)
    as (j0 & t0' & set_j & lb & pb & Ha0' & Hj & Hstep_b & _).
  rewrite Ha' in Ha0'. injection Ha0' as <- <-.
  destruct (engine_step_kind _ _ _ _ _ Hstep_a) as (ka & _ & _ & _ & Hka).
  destruct (engine_step_kind _ _ _ _ _ Hstep_b) as (kb & _ & _ & _ & Hkb).
  assert (Hne : Z.to_nat i <> Z.to_nat j).
  { rewrite address_split_defined in Ha, Ha' by (destruct Hcfg; lia).
    injection Ha as <- _. injection Ha' as <- _.
    pose proof (set_index_in_range (par_s par) (par_b par) a ltac:(lia)).
    pose proof (set_index_in_range (par_s par) (par_b par) a' ltac:(lia)).
    lia. }
  rewrite (access_then_other_set par c a a' i j t t' set_i set_j la lb ka kb)
    by done.
  rewrite (access_then_other_set par c a' a j i t' t set_j set_i lb la kb ka)
    by done.
  split; [|by eexists].
  by rewrite list_insert_insert_ne, count_access_comm.
Qed.

Lemma X15_commute_witness :
  run_accesses demo_cache demo_par [12; 6] = run_accesses demo_cache demo_par [6; 12] /\
  is_Some (run_accesses demo_cache demo_par [12; 6]).
Proof.
  apply (X15_accesses_to_different_sets_commute demo_par demo_cache 12 6 0 1 3 1).
  - exact (proj1 demo_cache_ok).
  - exact (proj2 demo_cache_ok).
  - reflexivity.
  - reflexivity.
  - lia.
Defined.

(** ** Replacement order *)

(** X16: without hits the replacement is first in, first out: [E] accesses
    to pairwise distinct tags of one empty set fill its lines in order, with
    recencies 1 to [E], as [E] misses without eviction; an access to a
    further tag of that set then replaces line 0, the tag accessed first. *)
Theorem X16_distinct_tags_fill_in_order (par : cache_param_t) (c : cache) (si : Z)
    (addrs tags : list Z) (a t : Z) :
  1 <= par_E par ->
  c !! Z.to_nat si = Some (replicate (Z.to_nat (par_E par)) fresh_line) ->
  length tags = Z.to_nat (par_E par) ->
  Forall2 (fun a t => address_split par a = Some (si, t)) addrs tags ->
  NoDup tags ->
  address_split par a = Some (si, t) -> t ∉ tags ->
  0 <= par_misses par -> par_misses par + par_E par < INT_MAX ->
  0 <= par_evictions par < INT_MAX ->
  exists c' par',
    run_accesses c par addrs = Some (c', par') /\
    par' = set_misses par (par_misses par + par_E par) /\
    c' !! Z.to_nat si = Some (filled_from 0 tags) /\
    simulate_cache c' par' a
    = Some (<[Z.to_nat si :=
                <[0%nat := mk_line true (par_E par + 1) t]> (filled_from 0 tags)]> c',
            set_evictions (set_misses par' (par_misses par' + 1))
                          (par_evictions par + 1)).
Proof. apply fill_then_evict_first. Qed.

Lemma X16_fill_in_order_witness :
  exists c' par',
    run_accesses (replicate 2 (replicate 2 fresh_line)) (initial_par 1 2 1) [4; 8]
    = Some (c', par') /\
    par' = set_misses (initial_par 1 2 1) (0 + 2) /\
    c' !! Z.to_nat 0 = Some (filled_from 0 [1; 2]) /\
    simulate_cache c' par' 12
    = Some (<[Z.to_nat 0 := <[0%nat := mk_line true (2 + 1) 3]> (filled_from 0 [1; 2])]> c',
            set_evictions (set_misses par' (par_misses par' + 1)) (0 + 1)).
Proof.
  apply (X16_distinct_tags_fill_in_order (initial_par 1 2 1)
           (replicate 2 (replicate 2 fresh_line)) 0 [4; 8] [1; 2] 12 3);
    try reflexivity; try int_range.
  - repeat constructor.
  - apply NoDup_cons. split; [|apply NoDup_cons; split; [|apply NoDup_nil_2]].
    + intros H. apply list_elem_of_singleton in H. lia.
    + apply not_elem_of_nil.
  - intros H. apply elem_of_cons in H as [H|H]; [lia|].
    apply list_elem_of_singleton in H. lia.
Defined.

(** ** Lines of a reachable cache *)

Lemma line_ok_mono (n : Z) (l : set_line) : line_ok n l -> line_ok (n + 1) l.
Proof. unfold line_ok. destruct (valid l); [lia|done]. Qed.

Lemma line_ok_count (n : Z) (l : set_line) :
  0 <= n -> line_ok n l -> 0 <= access_count l <= n.
Proof. unfold line_ok. destruct (valid l); [lia|]. intros Hn ->. simpl. lia. Qed.

Lemma engine_step_line_ok (n : Z) (par par' : cache_param_t) (t : Z)
    (set set' : cache_set) :
  0 <= n < INT_MAX ->
  Forall (line_ok n) set ->
  engine_step par t set set' par' ->
  Forall (line_ok (n + 1)) set'.
Proof.
  intros Hn Hall Hstep.
  assert (Hmono : Forall (line_ok (n + 1)) set).
  { eapply Forall_impl; [exact Hall|]. apply line_ok_mono. }
  rewrite Forall_lookup in Hall.
  destruct Hstep as [k line Hk [Hv _]|k mx _ _ [(j & l & Hl & Hmx) _]
                    |k mn mx _ _ _ [(j & l & Hl & Hmx) _]].
  - apply Forall_insert; [done|].
    pose proof (Hall _ _ Hk) as Hline. unfold line_ok in *. simpl.
    rewrite Hv in *. rewrite int_add_small by int_range. lia.
  - apply Forall_insert; [done|].
    pose proof (line_ok_count n l ltac:(lia) (Hall _ _ Hl)) as Hr.
    unfold line_ok. simpl. rewrite int_add_small by int_range. lia.
  - apply Forall_insert; [done|].
    pose proof (line_ok_count n l ltac:(lia) (Hall _ _ Hl)) as Hr.
    unfold line_ok. simpl. rewrite int_add_small by int_range. lia.
Qed.

Lemma run_lines_ok (addrs : list Z) (n : Z) (par par' : cache_param_t) (c c' : cache) :
  valid_config par -> cache_ok par c -> 0 <= n ->
  n + Z.of_nat (length addrs) <= INT_MAX ->
  Forall (Forall (line_ok n)) c ->
  run_accesses c par addrs = Some (c', par') ->
  Forall (Forall (line_ok (n + Z.of_nat (length addrs)))) c'.
Proof.
  revert n par c. induction addrs as [|a addrs IH];
    intros n par c Hcfg Hok Hn0 Hn Hall Hrun.
  - simpl in *. injection Hrun as <- <-. by rewrite Z.add_0_r.
  - simpl length in *. simpl in Hrun.
    destruct (simulate_cache_engine par c a Hcfg Hok)
      as (si & t & set & lines' & par1 & _ & Hset & Hstep & Hrun1).
    destruct (step_cache_ok par c a Hcfg Hok) as (c1 & par1' & Hrun1' & Hsame & Hok1).
    rewrite Hrun1 in Hrun1'. injection Hrun1' as <- <-.
    rewrite Hrun1 in Hrun.
    replace (n + Z.of_nat (S (length addrs))) with (n + 1 + Z.of_nat (length addrs)) by lia.
    apply (IH (n + 1) par1 (<[Z.to_nat si := lines']> c));
      [by eapply valid_config_same|done|lia|lia| |done].
    apply Forall_insert.
    + eapply Forall_impl; [exact Hall|]. simpl. intros l Hl.
      eapply Forall_impl; [exact Hl|]. apply line_ok_mono.
    + apply (engine_step_line_ok n par par1 t set); [int_range| |done].
      apply (Forall_lookup_1 _ _ _ _ Hall Hset).
Qed.

(** X17: in a cache reached by [n] accesses an invalid line is exactly as
    [build_cache] left it (tag 0, recency 0), and a valid line has a recency
    between 1 and [n]. *)
Theorem X17_lines_of_reachable_cache (s E b : Z) (addrs : list Z) (c : cache)
    (par : cache_param_t) (i j : nat) (set : cache_set) (l : set_line) :
  valid_config (initial_par s E b) ->
  reachable s E b addrs c par ->
  Z.of_nat (length addrs) <= INT_MAX ->
  c !! i = Some set -> set !! j = Some l ->
  (valid l = false -> l = fresh_line) /\
  (valid l = true -> 1 <= access_count l <= Z.of_nat (length addrs)).
Proof.
  intros Hcfg (bs & c0 & _ & Hbuild & Hrun) Hn Hset Hl.
  destruct (build_cache_ok (initial_par s E b) bs Hcfg) as (c0' & Hb & Hok0 & _).
  simpl in Hb. rewrite Hbuild in Hb. injection Hb as <-.
  pose proof (vc_s _ Hcfg) as Hs. simpl in Hs.
  assert (Hall : Forall (Forall (line_ok (0 + Z.of_nat (length addrs)))) c).
  { apply (run_lines_ok addrs 0 (initial_par s E b) par c0 c Hcfg Hok0);
      [lia|lia| |done].
    rewrite (build_cache_fresh s E bs c0 ltac:(lia) Hbuild).
    by apply Forall_replicate, Forall_replicate. }
  pose proof (Forall_lookup_1 _ _ _ _ (Forall_lookup_1 _ _ _ _ Hall Hset) Hl) as Hok.
  unfold line_ok in Hok. destruct (valid l); split; (done || lia).
Qed.

Lemma X17_lines_witness :
  (valid (mk_line true 2 2) = false -> mk_line true 2 2 = fresh_line) /\
  (valid (mk_line true 2 2) = true ->
   1 <= access_count (mk_line true 2 2) <= Z.of_nat (length [4; 8])).
Proof.
  apply (X17_lines_of_reachable_cache 1 2 1 [4; 8] demo_cache demo_par
           0%nat 1%nat demo_set (mk_line true 2 2)).
  - exact demo_valid_config.
  - exact demo_reachable.
  - int_range.
  - reflexivity.
  - reflexivity.
Defined.

Lemma engine_step_miss_shape (par par' : cache_param_t) (t : Z) (set set' : cache_set) :
  engine_step par t set set' par' ->
  par_misses par' <> par_misses par ->
  exists k mx,
    (k < length set)%nat /\ max_count_of set mx /\
    set' = <[k := mk_line true (int_add mx 1) t]> set.
Proof.
  intros [k line Hk Hh|k mx _ [(l & Hl & _) _] Hmx|k mn mx _ _ [(l & Hl & _) _] Hmx] Hm.
  - by destruct Hm.
  - exists k, mx. split; [by eapply lookup_lt_Some|done].
  - exists k, mx. split; [by eapply lookup_lt_Some|done].
Qed.

(** A line whose recency exceeds that of every other line of a set with at
    least two lines is still there after one more step on the set. *)
Lemma engine_step_keeps_recent (par par' : cache_param_t) (t t' r : Z)
    (set set' : cache_set) (k : nat) :
  (2 <= length set)%nat -> (k < length set)%nat ->
  (forall j l, set !! j = Some l -> access_count l < r) ->
  engine_step par t' (<[k := mk_line true r t]> set) set' par' ->
  exists l, set' !! k = Some l /\ holds_tag t l.
Proof.
  intros Hlen Hk Hlow Hstep.
  assert (Hnew : <[k := mk_line true r t]> set !! k = Some (mk_line true r t))
    by (by apply list_lookup_insert_eq).
  inversion Hstep as [k2 line2 Hk2 Hh2|k2 mx2 _ [(l2 & Hl2 & Hv2) _] _
                     |k2 mn2 mx2 _ _ [(l2 & Hl2 & Hmn2) [Hle2 _]] _]; subst.
  - destruct (decide (k2 = k)) as [->|Hne].
    + rewrite Hnew in Hk2. injection Hk2 as <-.
      eexists. split; [apply list_lookup_insert_eq; by rewrite length_insert|].
      by split.
    + exists (mk_line true r t). split; [by rewrite list_lookup_insert_ne|by split].
  - destruct (decide (k2 = k)) as [->|Hne].
    + rewrite Hnew in Hl2. by injection Hl2 as <-.
    + exists (mk_line true r t). split; [by rewrite list_lookup_insert_ne|by split].
  - destruct (decide (k2 = k)) as [->|Hne].
    + rewrite Hnew in Hl2. injection Hl2 as <-. simpl in Hle2.
      destruct (lookup_lt_is_Some_2 set (if decide (k = 0%nat) then 1%nat else 0%nat))
        as [lj Hlj]; [case_decide; lia|].
      pose proof (Hlow _ _ Hlj) as Hlt.
      specialize (Hle2 (if decide (k = 0%nat) then 1%nat else 0%nat) lj).
      rewrite list_lookup_insert_ne in Hle2 by (case_decide; lia).
      specialize (Hle2 Hlj). lia.
    + exists (mk_line true r t). split; [by rewrite list_lookup_insert_ne|by split].
Qed.

(** X18: with at least two lines per set, a line brought in by a miss is
    never the victim of the very next access: the tag that missed is still
    resident in its set after one more access, to any address.  (For a line
    that was only hit there is no such guarantee.) *)
Theorem X18_fetched_line_survives_next_access (s E b : Z) (addrs : list Z)
    (c c1 c2 : cache) (par par1 par2 : cache_param_t) (a a' setIndex input_tag : Z) :
  valid_config (initial_par s E b) -> 2 <= E ->
  reachable s E b addrs c par ->
  Z.of_nat (length addrs) < INT_MAX ->
  address_split par a = Some (setIndex, input_tag) ->
  simulate_cache c par a = Some (c1, par1) ->
  par_misses par1 <> par_misses par ->
  simulate_cache c1 par1 a' = Some (c2, par2) ->
  exists set2 k l,
    c2 !! Z.to_nat setIndex = Some set2 /\ set2 !! k = Some l /\
    holds_tag input_tag l.
Proof.
  intros Hcfg HE2 Hreach Hn Hsplit Hrun1 Hmiss Hrun2.
  destruct (reachable_ok _ _ _ _ _ _ Hcfg Hreach) as (Hcfg' & Hok & (_ & _ & HE)).
  simpl in HE.
  pose proof (reachable_counters _ _ _ _ _ _ Hcfg Hreach ltac:(lia)) as Hcnt.
  destruct (simulate_cache_engine par c a Hcfg' Hok)
    as (si & t & set & lines1 & p1 & Hsplit' & Hset & Hstep1 & Hrun1').
  rewrite Hsplit in Hsplit'. injection Hsplit' as <- <-.
  rewrite Hrun1 in Hrun1'. injection Hrun1' as -> ->.
  destruct (engine_step_miss_shape _ _ _ _ _ Hstep1 Hmiss) as (k & mx & Hk & Hmx & ->).
  pose proof (counters_ok_max _ _ _ _ _ _ Hcnt Hset Hmx) as Hmxr.
  rewrite int_add_small in * by int_range.
  assert (Hlen : length set = Z.to_nat (par_E par)).
  { destruct Hok as (_ & Hshape & _). apply (Forall_lookup_1 _ _ _ _ Hshape Hset). }
  assert (Hsi : (Z.to_nat setIndex < length c)%nat) by (by eapply lookup_lt_Some).
  destruct (step_cache_ok par c a Hcfg' Hok) as (c1' & par1' & Hrun1' & Hsame & Hok1).
  rewrite Hrun1 in Hrun1'. injection Hrun1' as <- <-.
  destruct (simulate_cache_engine p1 _ a' (valid_config_same _ _ Hsame Hcfg') Hok1)
    as (sj & t' & set' & lines2 & p2 & _ & Hset' & Hstep2 & Hrun2').
  rewrite Hrun2 in Hrun2'. injection Hrun2' as -> ->.
  destruct (decide (Z.to_nat sj = Z.to_nat setIndex)) as [Heq|Hne].
  - rewrite Heq in *. rewrite list_lookup_insert_eq in Hset' by done.
    injection Hset' as <-.
    destruct (engine_step_keeps_recent p1 p2 input_tag t' (mx + 1) set lines2 k)
      as (l & Hl & Hh); [lia|done| |done|].
    { intros j l Hl. destruct Hmx as [_ Hle]. specialize (Hle _ _ Hl). lia. }
    exists lines2, k, l. split; [|done].
    apply list_lookup_insert_eq. by rewrite length_insert.
  - exists (<[k := mk_line true (mx + 1) input_tag]> set), k,
           (mk_line true (mx + 1) input_tag).
    split; [|split; [by apply list_lookup_insert_eq|by split]].
    rewrite list_lookup_insert_ne by done. by apply list_lookup_insert_eq.
Qed.

Lemma X18_survives_witness :
  exists set2 k l,
    <[0%nat := [mk_line true 3 3; mk_line true 4 4]]> demo_cache !! Z.to_nat 0
    = Some set2 /\
    set2 !! k = Some l /\ holds_tag 3 l.
Proof.
  apply (X18_fetched_line_survives_next_access 1 2 1 [4; 8] demo_cache
           (<[0%nat := [mk_line true 3 3; mk_line true 2 2]]> demo_cache) _
           demo_par (set_evictions (set_misses demo_par 3) 1)
           (set_evictions (set_misses demo_par 4) 2) 12 16 0 3).
  - exact demo_valid_config.
  - lia.
  - exact demo_reachable.
  - int_range.
  - reflexivity.
  - reflexivity.
  - simpl. lia.
  - reflexivity.
Defined.

(** ** What the program prints *)

(** X19: for a valid configuration and a trace of at most [INT_MAX]
    accesses [main] prints a summary whose numbers are non-negative, with
    [hits + misses] the number of accesses, [evictions <= misses], and at
    most [2^s * E] misses that are not evictions.  In particular a trace
    without data accesses prints three zeros. *)
Theorem X19_summary_bounds (s E b : Z) (trace : list trace_record) :
  valid_config (initial_par s E b) ->
  Z.of_nat (length (issued trace)) <= INT_MAX ->
  exists hits misses evictions,
    main_after_getopt s E b (Some trace) = summary hits misses evictions /\
    (forall returns,
       options_parse_to returns s E b (Some trace) ->
       main returns = summary hits misses evictions) /\
    0 <= hits /\ 0 <= evictions <= misses /\
    hits + misses = Z.of_nat (length (issued trace)) /\
    misses - evictions <= 2 ^ s * E /\
    (issued trace = [] -> hits = 0 /\ misses = 0 /\ evictions = 0).
Proof.
  intros Hcfg Hn.
  destruct (reachable_total s E b (issued trace) Hcfg) as (c & par & Hreach).
  pose proof (reachable_counters _ _ _ _ _ _ Hcfg Hreach Hn) as (Hh & He & Hsum & _).
  pose proof (reachable_residency _ _ _ _ _ _ Hcfg Hreach Hn) as [Hres Hcap].
  exists (par_hits par), (par_misses par), (par_evictions par).
  split; [by apply (main_summary _ _ _ _ c)|].
  split.
  { intros returns Hparse. rewrite (main_parsed _ _ _ _ _ Hparse).
    by apply (main_summary _ _ _ _ c). }
  split; [done|]. split; [done|]. split; [done|].
  split; [by rewrite Hres|].
  intros Hnil. rewrite Hnil in Hsum. simpl in Hsum. lia.
Qed.

Lemma X19_summary_witness :
  exists hits misses evictions,
    main_after_getopt 1 2 1 (Some demo_trace) = summary hits misses evictions /\
    (forall returns,
       options_parse_to returns 1 2 1 (Some demo_trace) ->
       main returns = summary hits misses evictions) /\
    0 <= hits /\ 0 <= evictions <= misses /\
    hits + misses = Z.of_nat (length (issued demo_trace)) /\
    misses - evictions <= 2 ^ 1 * 2 /\
    (issued demo_trace = [] -> hits = 0 /\ misses = 0 /\ evictions = 0).
Proof.
  apply (X19_summary_bounds 1 2 1 demo_trace); [exact demo_valid_config | int_range].
Defined.
